(** * The example-validation harness of langchainjs-for-beginners

    A shallow embedding of [scripts/validate-examples.ts] (sequential mode)
    and [scripts/validate-examples-parallel.ts] (parallel mode, with the
    worker pool [runTestsWithConcurrency]).

    JavaScript runs every stretch of code between two suspension points to
    completion.  A worker of the pool is therefore modelled by the stretches
    it is made of: the one from the head of its [while (true)] loop to the
    [await] of the runner's promise (or to the [break]), and the one that
    starts when that promise settles.  The order in which the promises of
    different workers settle is left open: it is the nondeterminism of the
    step relation.  So is the moment the process exits after a promise was
    rejected: the workers whose promises are settled by then still run. *)

From Stdlib Require Import Ascii.
From stdpp Require Import base list strings relations.


(** ** Data model *)

(** Modelled from the spec: the [TestResult] type is declared in
    [validation-common], which is not part of the sources at hand.  The
    fields are the ones the two scripts read: [result.success],
    [result.duration] and the optional [result.error]. *)
Record TestResult := mkTestResult {
  success : bool;
  duration : nat;
  error : option string
}.

(** Modelled from the spec: a [ServerConfig] is "a start command [and]
    arguments"; the scripts only test it for being non-null and pass it on. *)
Record ServerConfig := mkServerConfig {
  command : string;
  args : list string
}.

(** How a promise settles. *)
Inductive settled :=
| Fulfilled (result : TestResult)
| Rejected (reason : string).

(** How an [async] function ends. *)
Inductive completion (A : Type) :=
| Returns (a : A)
| Throws (reason : string).
Arguments Returns {A} a.
Arguments Throws {A} reason.

(** The two runners a script can call for a file. *)
Inductive runner_call :=
| CallRunExample (file : string)
| CallRunServerExample (file : string) (serverConfig : ServerConfig).

(** Lines written to the console. *)
Inductive console_line :=
| Starting (n total : nat) (relativePath : string)
| PassedLine (n total : nat) (relativePath : string) (ms : nat)
| FailedLine (n total : nat) (relativePath : string)
| ErrorLine (firstLine : string)
| BlankLine
| Progress (n total : nat) (relativePath : string)
| Tick (ms : nat)
| Cross.

(** What happens during a run, oldest event first.  [EClaim], [EAwaited] and
    [EStore] instrument the statements [const currentIndex = nextIndex++],
    the return of [await] and [results[currentIndex] = result] (or
    [results.push(result)]); [EInvoke] is the call of a runner. *)
Inductive event :=
| EClaim (w currentIndex : nat)
| EPrint (line : console_line)
| EInvoke (i : nat) (call : runner_call)
| EAwaited (i : nat) (outcome : settled)
| EStore (w i : nat) (result : TestResult).

(** What a trace records of each kind: the claims as (index, worker), the
    runner calls and the settled promises by index, the stores as
    (index, (worker, result)), and the lines printed. *)
Definition claims (t : list event) : list (nat * nat) :=
  omap (λ e, match e with EClaim w i => Some (i, w) | _ => None end) t.

Definition invoked (t : list event) : list (nat * runner_call) :=
  omap (λ e, match e with EInvoke i call => Some (i, call) | _ => None end) t.

Definition awaited (t : list event) : list (nat * settled) :=
  omap (λ e, match e with EAwaited i o => Some (i, o) | _ => None end) t.

Definition stores (t : list event) : list (nat * (nat * TestResult)) :=
  omap (λ e, match e with EStore w i r => Some (i, (w, r)) | _ => None end) t.

Definition printed (t : list event) : list console_line :=
  omap (λ e, match e with EPrint line => Some line | _ => None end) t.

(** The runner calls and their ends, in the order they happen: [inl i] for
    the call made for file [i], [inr i] for the return of its [await]. *)
Definition brackets (t : list event) : list (nat + nat) :=
  omap (λ e, match e with
             | EInvoke i _ => Some (inl i)
             | EAwaited i _ => Some (inr i)
             | _ => None
             end) t.

(** At the point a trace ends, no more than [k] of the runner calls made
    have a promise that was not awaited yet (and none was awaited that was
    not made). *)
Definition flight_within (k : nat) (t : list event) : Prop :=
  length (awaited t) ≤ length (invoked t) ≤ length (awaited t) + k.

(** The result a fulfilled promise carries. *)
Definition fulfilment (o : settled) : option TestResult :=
  match o with Fulfilled result => Some result | Rejected _ => None end.

(** The reasons of the promises that were rejected, in the order their
    [await]s threw. *)
Definition rejections (t : list event) : list string :=
  omap (λ a, match a.2 with Rejected reason => Some reason | Fulfilled _ => None end)
    (awaited t).

(** ** Strings *)

Fixpoint drop_chars (n : nat) (s : string) : string :=
  match n, s with
  | O, _ => s
  | S _, EmptyString => EmptyString
  | S n', String _ s' => drop_chars n' s'
  end.

(** [s.replace(pat, rep)] with a string pattern: the first occurrence only. *)
Fixpoint replace_first (pat rep s : string) : string :=
  if String.prefix pat s then rep ++ drop_chars (String.length pat) s
  else match s with
       | EmptyString => EmptyString
       | String c s' => String c (replace_first pat rep s')
       end.

(** [s.split("\n")[0]] *)
Fixpoint first_line (s : string) : string :=
  match s with
  | EmptyString => EmptyString
  | String c s' =>
      if Ascii.eqb c "010"%char then EmptyString else String c (first_line s')
  end.

(** Truthiness of an optional string: [undefined] and [""] are falsy. *)
Definition truthy (o : option string) : bool :=
  match o with
  | Some EmptyString | None => false
  | Some _ => true
  end.

(** [arr.filter(f)] on an array that may have holes: holes are skipped. *)
Definition js_filter {A} (f : A → bool) (arr : list (option A)) : list A :=
  filter (λ a, f a = true) (omap id arr).

(** ** The scripts *)

Section Harness.

(** The collaborators imported from [validation-common]: the resolver, which
    is a pure function, and the two runners, each taken as the way the
    promise it returns settles. *)
Variable getServerConfig : string → option ServerConfig.
Variable runExample : string → settled.
Variable runServerExample : string → ServerConfig → settled.
Variable projectRoot : string.

Definition relativePath (file : string) : string :=
  replace_first (projectRoot ++ "/") "" file.

(** [serverConfig ? runServerExample(file, serverConfig) : runExample(file)] *)
Definition dispatch (file : string) : runner_call :=
  match getServerConfig file with
  | Some serverConfig => CallRunServerExample file serverConfig
  | None => CallRunExample file
  end.

Definition settle (call : runner_call) : settled :=
  match call with
  | CallRunExample file => runExample file
  | CallRunServerExample file serverConfig => runServerExample file serverConfig
  end.

(** *** Parallel mode: [runTestsWithConcurrency] *)

(** Where a worker is: suspended at the [await] for the file it claimed,
    out of its loop, or ended by an exception (no [try] surrounds the
    [await]; the index is kept for the record). *)
Inductive wstate :=
| Awaiting (currentIndex : nat)
| Finished
| Threw (currentIndex : nat) (reason : string).

Record pool := Pool {
  nextIndex : nat;
  results : list (option TestResult);
  workers : list wstate;
  trace : list event
}.

(** The index a worker holds: the one it waits for, or the one it threw at. *)
Definition own (st : wstate) : option nat :=
  match st with
  | Awaiting currentIndex | Threw currentIndex _ => Some currentIndex
  | Finished => None
  end.

(** The examples in flight: claimed, runner called, promise not yet awaited. *)
Definition waiting (st : wstate) : option nat :=
  match st with Awaiting currentIndex => Some currentIndex | _ => None end.

Definition inflight (ws : list wstate) : list nat := omap waiting ws.

(** The reason a worker ended by an exception with, if one did (the worker
    of the lowest number, if several did). *)
Fixpoint thrown (ws : list wstate) : option string :=
  match ws with
  | [] => None
  | Threw _ reason :: _ => Some reason
  | _ :: ws' => thrown ws'
  end.

Definition is_finished (st : wstate) : bool :=
  match st with Finished => true | _ => false end.

Section Scheduler.

(** The files discovered and the limit, a count of workers (the one call
    passes the constant 10). *)
Variable files : list string.
Variable concurrency : nat.

(** [const results = new Array(files.length); let nextIndex = 0;
    const workers = []] *)
Definition init : pool :=
  Pool 0 (replicate (length files) None) [] [].

Definition log (es : list event) (p : pool) : pool :=
  Pool (nextIndex p) (results p) (workers p) (trace p ++ es).

(** The body of the worker's loop from its head to the [await] (or to the
    [break]): it runs without a suspension point. *)
Definition worker_turn (w : nat) (p : pool) : pool * wstate :=
  let currentIndex := nextIndex p in
  let p1 := Pool (S (nextIndex p)) (results p) (workers p)
                 (trace p ++ [EClaim w currentIndex]) in
  if decide (length files ≤ currentIndex) then (p1, Finished)
  else
    let file := files !!! currentIndex in
    (log [EPrint (Starting (currentIndex + 1) (length files) (relativePath file));
          EInvoke currentIndex (dispatch file)] p1,
     Awaiting currentIndex).

(** The lines printed when a test completes. *)
Definition report (currentIndex : nat) (file : string) (result : TestResult)
  : list console_line :=
  if success result then
    [PassedLine (currentIndex + 1) (length files) (relativePath file) (duration result)]
  else
    FailedLine (currentIndex + 1) (length files) (relativePath file)
    :: (if truthy (error result)
        then [ErrorLine (first_line (default "" (error result)))] else [])
    ++ [BlankLine].

(** The promise worker [w] waits for settles, and the worker runs up to
    its next suspension point. *)
Definition resume (w : nat) (p : pool) : option pool :=
  match workers p !! w with
  | Some (Awaiting currentIndex) =>
      let file := files !!! currentIndex in
      match settle (dispatch file) with
      | Rejected reason =>
          Some (Pool (nextIndex p) (results p)
                     (<[w := Threw currentIndex reason]> (workers p))
                     (trace p ++ [EAwaited currentIndex (Rejected reason)]))
      | Fulfilled result =>
          let p1 := Pool (nextIndex p)
                         (<[currentIndex := Some result]> (results p))
                         (workers p)
                         (trace p ++ EAwaited currentIndex (Fulfilled result)
                                  :: EStore w currentIndex result
                                  :: fmap EPrint (report currentIndex file result)) in
          let '(p2, st) := worker_turn w p1 in
          Some (Pool (nextIndex p2) (results p2) (<[w := st]> (workers p2)) (trace p2))
      end
  | _ => None
  end.

(** [workers.push(worker())]: the call runs the new worker up to its first
    suspension point. *)
Definition spawn (p : pool) : pool :=
  let '(p1, st) := worker_turn (length (workers p)) p in
  Pool (nextIndex p1) (results p1) (workers p1 ++ [st]) (trace p1).

(** Some worker has ended by an exception. *)
Definition crashed (p : pool) : bool :=
  match thrown (workers p) with Some _ => true | None => false end.

(** One step of the run: the [for] loop starts one more worker, or, once
    it has started [Math.min(concurrency, files.length)] of them and
    [Promise.all] is awaited, the promise one worker waits for settles.  The
    loop is synchronous, so no promise is awaited before it is over.

    A worker's exception rejects [Promise.all], then
    [runTestsWithConcurrency], then [main], whose [catch] handler calls
    [process.exit(1)]; nothing stops the other workers before that call, so
    a worker whose promise has settled still runs up to its next suspension
    point.  How many do before the process is gone depends on when the
    promises settle and is left open: the steps go on after a rejection, and
    the process can exit in any of the states that follow it. *)
Inductive step : pool → pool → Prop :=
| step_spawn p :
    length (workers p) < concurrency `min` length files →
    step p (spawn p)
| step_resume w p p' :
    length (workers p) = concurrency `min` length files →
    resume w p = Some p' →
    step p p'.

Definition reachable (p : pool) : Prop := rtc step init p.

(** What [await Promise.all(workers); return results] gives, once it can:
    [Promise.all] is rejected with the reason of the first of the workers to
    end by an exception, and is fulfilled when all of them have returned. *)
Definition outcome (p : pool) : option (completion (list (option TestResult))) :=
  if decide (length (workers p) = concurrency `min` length files) then
    match head (rejections (trace p)) with
    | Some reason => Some (Throws reason)
    | None =>
        if forallb is_finished (workers p) then Some (Returns (results p)) else None
    end
  else None.

(** An executable run: the promises settle in the order [order] gives, a
    list of worker numbers (a number that is not the one of a suspended
    worker is passed over). *)
Definition started : pool :=
  Nat.iter (concurrency `min` length files) spawn init.

Fixpoint settle_in_order (order : list nat) (p : pool) : pool :=
  match order with
  | [] => p
  | w :: order' =>
      match resume w p with
      | Some p' => settle_in_order order' p'
      | None => settle_in_order order' p
      end
  end.

Definition runTestsWithConcurrency (order : list nat)
  : option (completion (list (option TestResult))) :=
  outcome (settle_in_order order started).

(** The invariant of the pool.  The indices handed out are owned by the
    workers or stored, each once; a slot holds a result exactly when its index
    is stored, and the result is the one its file's runner gave. *)
Record consistent (p : pool) : Prop := {
  inv_results : length (results p) = length files;
  inv_workers : length (workers p) ≤ concurrency `min` length files;
  inv_spawning :
    length (workers p) < concurrency `min` length files →
    nextIndex p = length (workers p);
  inv_claims : (claims (trace p)).*1 = seq 0 (nextIndex p);
  inv_invoked :
    invoked (trace p) = imap (λ i file, (i, dispatch file)) (take (nextIndex p) files);
  inv_owned :
    omap own (workers p) ++ (stores (trace p)).*1
    ≡ₚ seq 0 (nextIndex p `min` length files);
  inv_stored : ∀ i w r,
    (i, (w, r)) ∈ stores (trace p) →
    settle (dispatch (files !!! i)) = Fulfilled r
    ∧ results p !! i = Some (Some r)
    ∧ (i, w) ∈ claims (trace p);
  inv_empty : ∀ i,
    i < length files → i ∉ (stores (trace p)).*1 → results p !! i = Some None;
  inv_awaiting : ∀ w i,
    workers p !! w = Some (Awaiting i) → (i, w) ∈ claims (trace p);
  inv_threw : ∀ w i reason,
    workers p !! w = Some (Threw i reason) →
    settle (dispatch (files !!! i)) = Rejected reason;
  inv_finished : ∀ w,
    workers p !! w = Some Finished → length files ≤ nextIndex p
}.

End Scheduler.

(** *** Sequential mode: the loop of [main] *)

(** [results], [passed] and [failed] of the sequential [main]. *)
Record tally := Tally {
  seq_results : list TestResult;
  passed : nat;
  failed : nat;
  seq_trace : list event
}.

(** What the loop prints after the runner's promise is fulfilled. *)
Definition seq_report (result : TestResult) : list console_line :=
  if success result then [Tick (duration result)]
  else Cross :: (if truthy (error result)
                 then [ErrorLine (first_line (default "" (error result)))] else []).

(** [for (let i = 0; i < allFiles.length; i++)], from index [i] on, where
    [rest] is what is left of [allFiles].  The second component is the
    reason of the exception that left the loop, if one did: nothing in the
    loop catches a rejected promise. *)
Fixpoint run_loop (total i : nat) (rest : list string) (s : tally)
  : tally * option string :=
  match rest with
  | [] => (s, None)
  | file :: rest' =>
      let call := dispatch file in
      let before := seq_trace s ++ [EPrint (Progress (i + 1) total (relativePath file));
                                    EInvoke i call] in
      match settle call with
      | Rejected reason =>
          (Tally (seq_results s) (passed s) (failed s)
                 (before ++ [EAwaited i (Rejected reason)]),
           Some reason)
      | Fulfilled result =>
          run_loop total (S i) rest'
            (Tally (seq_results s ++ [result])
                   (if success result then S (passed s) else passed s)
                   (if success result then failed s else S (failed s))
                   (before ++ EAwaited i (Fulfilled result)
                           :: EStore 0 i result
                           :: fmap EPrint (seq_report result)))
      end
  end.

Definition run_sequential (allFiles : list string) : tally * option string :=
  run_loop (length allFiles) 0 allFiles (Tally [] 0 0 []).

(** The events of one turn of the loop. *)
Definition seq_segment (total i : nat) (file : string) : list event :=
  [EPrint (Progress (i + 1) total (relativePath file)); EInvoke i (dispatch file)]
  ++ match settle (dispatch file) with
     | Fulfilled result =>
         EAwaited i (Fulfilled result) :: EStore 0 i result
         :: (EPrint <$> seq_report result)
     | Rejected reason => [EAwaited i (Rejected reason)]
     end.

(** The runner of [file] gives a result. *)
Definition fulfils (file : string) : Prop :=
  is_Some (fulfilment (settle (dispatch file))).

(** The exit status of the sequential script.  [discovered] is how
    [findChapters] and [collectAllCodeFiles] end; an exception anywhere in
    [main] reaches [main().catch], which exits with 1. *)
Definition main_sequential (discovered : completion (list string)) : nat :=
  match discovered with
  | Throws _ => 1
  | Returns allFiles =>
      match run_sequential allFiles with
      | (_, Some _) => 1
      | (s, None) => if decide (0 < failed s) then 1 else 0
      end
  end.

(** *** Parallel mode: [main] *)

Definition CONCURRENCY : nat := 10.

(** [const failed = results.filter((r) => !r.success).length] and the exit
    status chosen from it; a rejected [runTestsWithConcurrency] reaches
    [main().catch]. *)
Definition failed_count (results : list (option TestResult)) : nat :=
  length (js_filter (λ r, negb (success r)) results).

Definition exit_status (o : completion (list (option TestResult))) : nat :=
  match o with
  | Throws _ => 1
  | Returns results => if decide (0 < failed_count results) then 1 else 0
  end.

(** The exit statuses the parallel script can end with. *)
Inductive main_parallel (discovered : completion (list string)) : nat → Prop :=
| main_parallel_discovery reason :
    discovered = Throws reason →
    main_parallel discovered 1
| main_parallel_ran allFiles p o :
    discovered = Returns allFiles →
    reachable allFiles CONCURRENCY p →
    outcome allFiles CONCURRENCY p = Some o →
    main_parallel discovered (exit_status o).

End Harness.



(** ** What is read off a run *)

Definition is_starting (line : console_line) : bool :=
  match line with Starting _ _ _ => true | _ => false end.

Definition is_verdict (line : console_line) : bool :=
  match line with PassedLine _ _ _ _ | FailedLine _ _ _ => true | _ => false end.

(** The "Starting" lines and the "Passed"/"Failed" lines among the lines
    printed. *)
Definition starting_lines (ls : list console_line) : list console_line :=
  filter (λ line, is_starting line = true) ls.

Definition verdict_lines (ls : list console_line) : list console_line :=
  filter (λ line, is_verdict line = true) ls.

(** The line that tells how the test of file [i] of [files] ended. *)
Definition verdict_line (projectRoot : string) (files : list string)
    (i : nat) (result : TestResult) : console_line :=
  if success result then
    PassedLine (i + 1) (length files) (relativePath projectRoot (files !!! i))
      (duration result)
  else
    FailedLine (i + 1) (length files) (relativePath projectRoot (files !!! i)).

(** The workers that have left their loop. *)
Definition retired (ws : list wstate) : nat :=
  length (filter (λ st, is_finished st = true) ws).

(** The runner of [file] gives a result that is a success. *)
Definition passes (getServerConfig : string → option ServerConfig)
    (runExample : string → settled)
    (runServerExample : string → ServerConfig → settled) (file : string) : Prop :=
  ∃ r, settle runExample runServerExample (dispatch getServerConfig file) = Fulfilled r
       ∧ success r = true.

(** ** The process runner *)

(** [needle] occurs in [s]. *)
Fixpoint contains (needle s : string) : bool :=
  String.prefix needle s
  || match s with
     | EmptyString => false
     | String _ s' => contains needle s'
     end.

Module ProcessRunner.

(** What the harness observes of the child process it spawned: the child
    exits by itself after some time, it never does, or the harness itself
    fails while the child runs. *)
Inductive child :=
| Exits (elapsed status : nat) (uncaught : bool) (output : string)
| Hangs
| HarnessFault (reason : string).

Inductive proc_event :=
| Spawned
| Exited (status : nat)
| Killed.

Definition TIMEOUT_MESSAGE : string := "timeout".

(** Modelled from the spec: [runExample] of [validation-common], which is not
    part of the sources at hand, after section 4.3: "spawn the example as a
    child process with a bounded [...] timeout; capture combined output and
    exit status; success = zero exit status and no uncaught top-level error
    signaled by the process; duration = measured wall-clock between spawn and
    exit/timeout.  If the bound is exceeded, forcibly terminate the child
    process, record failure with a synthetic timeout error message, and
    still report a duration equal to the timeout bound.  Exactly one child
    process is spawned and guaranteed to be reaped (terminated or exited)
    before run returns, under all outcomes including timeout and internal
    harness errors."  The result comes with the process events that precede
    the return. *)
Definition runExample (timeoutMs : nat) (c : child)
  : completion TestResult * list proc_event :=
  match c with
  | Exits elapsed status uncaught output =>
      if decide (timeoutMs < elapsed) then
        (Returns (mkTestResult false timeoutMs (Some TIMEOUT_MESSAGE)), [Spawned; Killed])
      else
        let ok := Nat.eqb status 0 && negb uncaught in
        (Returns (mkTestResult ok elapsed (if ok then None else Some (first_line output))),
         [Spawned; Exited status])
  | Hangs =>
      (Returns (mkTestResult false timeoutMs (Some TIMEOUT_MESSAGE)), [Spawned; Killed])
  | HarnessFault reason =>
      (Throws reason, [Spawned; Killed])
  end.

(** The child outlives the bound. *)
Definition exceeds (timeoutMs : nat) (c : child) : Prop :=
  match c with
  | Exits elapsed _ _ _ => timeoutMs < elapsed
  | Hangs => True
  | HarnessFault _ => False
  end.

(** The child is gone: the last event is its exit or its termination. *)
Definition reaped (es : list proc_event) : Prop :=
  match last es with
  | Some (Exited _) | Some Killed => True
  | _ => False
  end.

Definition is_spawn (e : proc_event) : bool :=
  match e with Spawned => true | _ => false end.

(** How many child processes were spawned. *)
Definition spawns (es : list proc_event) : nat :=
  length (filter (λ e, is_spawn e = true) es).

End ProcessRunner.

(** ** The server lifecycle *)

Module ServerLifecycle.

(** What the companion server does after it is spawned. *)
Inductive server :=
| BecomesReady
| ExitsBeforeReady (status : nat)
| ErrorsBeforeReady (reason : string).

Inductive lifecycle_event :=
| ServerSpawned (command : string) (args : list string)
| ServerReady
| Client (e : ProcessRunner.proc_event)
| ServerTerminated.

Definition STARTUP_MESSAGE : string := "server failed to start".

(** Modelled from the spec: [runServerExample] of [validation-common], which
    is not part of the sources at hand, after section 4.4: "spawn the server
    process per serverConfig; wait for a readiness signal.  If the server
    process exits or errors before becoming ready, transition directly to
    Torn Down and return a TestResult marked failed with a server failed to
    start message; the client example is never invoked.  Once ready, delegate
    to the Process Runner for the client example exactly as in 4.3.
    Regardless of how Running ends (success, failure, timeout, or an internal
    exception inside the harness itself), the server process is terminated
    before runServerExample returns."  The result comes with the process
    events that precede the return. *)
Definition runServerExample (serverConfig : ServerConfig) (timeoutMs : nat)
    (s : server) (c : ProcessRunner.child)
  : completion TestResult * list lifecycle_event :=
  let starting := [ServerSpawned (command serverConfig) (args serverConfig)] in
  match s with
  | BecomesReady =>
      let '(result, es) := ProcessRunner.runExample timeoutMs c in
      (result, starting ++ ServerReady :: fmap Client es ++ [ServerTerminated])
  | ExitsBeforeReady _ | ErrorsBeforeReady _ =>
      (Returns (mkTestResult false 0 (Some STARTUP_MESSAGE)),
       starting ++ [ServerTerminated])
  end.

Definition startup_failed (s : server) : Prop :=
  match s with
  | BecomesReady => False
  | ExitsBeforeReady _ | ErrorsBeforeReady _ => True
  end.

Definition is_termination (e : lifecycle_event) : bool :=
  match e with ServerTerminated => true | _ => false end.

Definition is_client_spawn (e : lifecycle_event) : bool :=
  match e with Client ProcessRunner.Spawned => true | _ => false end.

Definition terminations (es : list lifecycle_event) : nat :=
  length (filter (λ e, is_termination e = true) es).

Definition client_spawns (es : list lifecycle_event) : nat :=
  length (filter (λ e, is_client_spawn e = true) es).

End ServerLifecycle.

(** ** A run to try things on *)

Module Scenario.

Definition root : string := "/repo".
Definition fileA : string := "/repo/05-agents/code/A.ts".
Definition fileB : string := "/repo/05-agents/code/B.ts".
Definition fileC : string := "/repo/05-agents/code/C.ts".
Definition fileS : string := "/repo/06-mcp/code/S.ts".
Definition fileX : string := "/repo/06-mcp/code/X.ts".

Definition resultA : TestResult := mkTestResult true 100 None.
Definition resultB : TestResult :=
  mkTestResult false 50
    (Some (String.append "Error: boom" (String "010"%char "    at main"))).
Definition resultC : TestResult := mkTestResult true 10 None.
Definition resultS : TestResult := mkTestResult true 70 None.

Definition serverS : ServerConfig := mkServerConfig "npx" ["tsx"; "servers/S.ts"].

Definition getServerConfig (file : string) : option ServerConfig :=
  if String.eqb file fileS then Some serverS else None.

(** A succeeds after 100 ms, B fails after 50 ms, C succeeds after 10 ms; the
    promise for X is rejected. *)
Definition runExample (file : string) : settled :=
  if String.eqb file fileA then Fulfilled resultA
  else if String.eqb file fileB then Fulfilled resultB
  else if String.eqb file fileX then Rejected "spawn EACCES"
  else Fulfilled resultC.

Definition runServerExample (file : string) (serverConfig : ServerConfig) : settled :=
  Fulfilled resultS.

Definition three : list string := [fileA; fileB; fileC].
Definition paired : list string := [fileA; fileS; fileB].
Definition broken : list string := [fileX; fileC].
Definition overrun : list string := [fileX; fileC; fileA].

End Scenario.

(** ** The tools of the agents *)

Module Tools.

(** *** The calculator's filter

    [input.expression.replace(/[^0-9+\-*/().\s]/g, "")] in the calculator
    tools of [planning-agent], [research-agent] and [multi-tool-agent].  The
    expression has no [u] flag, so it goes through the string one UTF-16 code
    unit at a time: the string is taken here as the list of its code
    units. *)

(** The class [\s]: white space and line terminators. *)
Definition whitespace (u : N) : bool :=
  bool_decide (u ∈ [9; 10; 11; 12; 13; 32; 160; 5760; 8232; 8233; 8239; 8287;
                    12288; 65279]%N)
  || ((8192 <=? u) && (u <=? 8202))%N.

(** The class [0-9+\-*/().\s]. *)
Definition allowed (u : N) : bool :=
  ((48 <=? u) && (u <=? 57))%N
  || bool_decide (u ∈ [43; 45; 42; 47; 40; 41; 46]%N)
  || whitespace u.

Definition sanitize (expression : list N) : list N :=
  filter (λ u, allowed u = true) expression.

(** A code unit that can be part of a name: a letter, [_] or [$]. *)
Definition name_unit (u : N) : Prop :=
  (65 ≤ u ≤ 90 ∨ 97 ≤ u ≤ 122 ∨ u = 95 ∨ u = 36)%N.

(** *** The search tool

    [searchTool] of [planning-agent] and of [research-agent]: the same loop
    over a table of its own.  [toLowerCase] is the method of the language. *)

(** [s.includes(sub)] *)
Definition includes (s sub : string) : bool := contains sub s.

Definition quote : string := String "034"%char EmptyString.

(** [Object.entries(searchResults)], in the order the keys are written. *)
Definition planning_results : list (string * string) :=
  [("population of tokyo", "Tokyo has a population of approximately 14 million");
   ("population of new york",
    "New York City has a population of approximately 8.3 million");
   ("distance london to paris", "The distance is approximately 343 kilometers");
   ("capital of france", "Paris");
   ("capital of japan", "Tokyo")].

Definition research_results : list (string * string) :=
  [("population of tokyo",
    "Tokyo has a population of approximately 14 million people in the city proper, and over 37 million in the greater metropolitan area.");
   ("capital of france", "The capital of France is Paris.");
   ("capital of japan", "The capital of Japan is Tokyo.");
   ("population of new york",
    "New York City has a population of approximately 8.3 million people.");
   ("distance london to paris",
    "The distance between London and Paris is approximately 343 kilometers.");
   ("highest mountain",
    "Mount Everest is the highest mountain in the world at 8,849 meters (29,032 feet).")].

(** The [for] loop: the value of the first entry whose key is in the query or
    has the query in it. *)
Fixpoint first_match (queryLower : string) (entries : list (string * string))
  : option string :=
  match entries with
  | [] => None
  | (key, value) :: entries' =>
      if includes queryLower key || includes key queryLower then Some value
      else first_match queryLower entries'
  end.

Section Search.

Variable toLowerCase : string → string.

Definition planning_search (query : string) : string :=
  match first_match (toLowerCase query) planning_results with
  | Some value => value
  | None => ("No results found for " ++ quote ++ query ++ quote)%string
  end.

Definition research_search (query : string) : string :=
  match first_match (toLowerCase query) research_results with
  | Some value => value
  | None =>
      ("Search results for " ++ quote ++ query ++ quote
       ++ ": No specific information found. This is a simulated search tool with limited data.")%string
  end.

End Search.

(** *** The summary of the tools used

    The end of the loop of [main] in [planning-agent] and [research-agent]. *)

(** A message of the response: an [AIMessage] with its [tool_calls] (the
    names of the calls, if the field is set), or a message of another
    class. *)
Inductive message :=
| AIMessage (tool_calls : option (list string))
| OtherMessage.

(** [msg instanceof AIMessage && msg.tool_calls && msg.tool_calls.length > 0] *)
Definition has_tool_calls (msg : message) : bool :=
  match msg with
  | AIMessage (Some (_ :: _)) => true
  | _ => false
  end.

(** [msg.tool_calls!.map((tc) => tc.name)] *)
Definition call_names (msg : message) : list string :=
  match msg with
  | AIMessage (Some tool_calls) => tool_calls
  | _ => []
  end.

(** [response.messages.filter(...).flatMap(...)] *)
Definition toolCalls (messages : list message) : list string :=
  mjoin (call_names <$> filter (λ msg, has_tool_calls msg = true) messages).

(** [[...new Set(xs)]]: the elements in the order they first occur. *)
Fixpoint distinct_from (seen xs : list string) : list string :=
  match xs with
  | [] => []
  | x :: xs' =>
      if bool_decide (x ∈ seen) then distinct_from seen xs'
      else x :: distinct_from (x :: seen) xs'
  end.

Definition distinct (xs : list string) : list string := distinct_from [] xs.

(** [xs.join(", ")] *)
Fixpoint join (xs : list string) : string :=
  match xs with
  | [] => ""
  | [x] => x
  | x :: xs' => (x ++ ", " ++ join xs')%string
  end.

(** What the summary shows, when it is shown: the tools used and the number
    of calls. *)
Definition summary (messages : list message) : option (string * nat) :=
  let calls := toolCalls messages in
  if decide (0 < length calls) then Some (join (distinct calls), length calls)
  else None.

End Tools.

(** ** The calculator server *)

Module CalculatorServer.

(** How [evaluate] of mathjs ends: with a value (here the text the template
    makes of it), with an [Error], or with something else thrown. *)
Inductive evaluated :=
| Value (text : string)
| ErrorThrown (message : string)
| OtherThrown.

(** The text between a number and the letter of its unit, as the source has
    it. *)
Definition DEGREES : string :=
  String "195"%char (String "130"%char (String "194"%char (String "176"%char ""))).

Section Handler.

(** Numbers and what the handler does with them; [evaluate]; and the text of
    [unit.toUpperCase()[0]] in a template. *)
Variable number : Type.
Variable add sub mul div : number → number → number.
Variable five nine thirty_two : number.
Variable show : number → string.
Variable toFixed2 : number → string.
Variable evaluate : string → evaluated.
Variable initial : string → string.

(** The arguments of a request, with the fields the handler reads. *)
Record arguments := Arguments {
  expression : string;
  value : number;
  from : string;
  to : string
}.

(** The handler of [CallToolRequestSchema]: the text of the content it
    returns, or the message of the error it throws. *)
Definition call_tool (name : string) (args : arguments) : completion string :=
  if String.eqb name "calculate" then
    match evaluate (expression args) with
    | Value result => Returns (expression args ++ " = " ++ result)%string
    | ErrorThrown message => Throws ("Invalid expression: " ++ message)%string
    | OtherThrown => Throws "Invalid expression: Unknown error"
    end
  else if String.eqb name "convert_temperature" then
    if String.eqb (from args) (to args) then
      Returns (show (value args) ++ DEGREES ++ initial (from args) ++ " = "
               ++ show (value args) ++ DEGREES ++ initial (to args))%string
    else
      let converted (result : number) :=
        Returns (show (value args) ++ DEGREES ++ initial (from args) ++ " = "
                 ++ toFixed2 result ++ DEGREES ++ initial (to args))%string in
      if String.eqb (from args) "celsius" && String.eqb (to args) "fahrenheit" then
        converted (add (div (mul (value args) nine) five) thirty_two)
      else if String.eqb (from args) "fahrenheit" && String.eqb (to args) "celsius" then
        converted (div (mul (sub (value args) thirty_two) five) nine)
      else
        Throws ("Invalid conversion: " ++ from args ++ " to " ++ to args)%string
  else Throws ("Unknown tool: " ++ name)%string.

End Handler.

(** The names of the tools the handler of [ListToolsRequestSchema] lists. *)
Definition listed_tools : list string := ["calculate"; "convert_temperature"].

End CalculatorServer.

(** ** The tools of several servers

    [03-mcp-multi-server] and [multi-server-integration] show the tools by
    server; a tool is taken as its name. *)

Module Grouping.

(** [tools.filter(t => t.name.includes("library") || t.name.includes("resolve"))] *)
Definition context7Tools (tools : list string) : list string :=
  filter (λ name, Tools.includes name "library" || Tools.includes name "resolve" = true)
    tools.

(** [tools.filter(t => t.name === "calculate" || t.name === "convert_temperature")] *)
Definition calcTools (tools : list string) : list string :=
  filter (λ name, String.eqb name "calculate" || String.eqb name "convert_temperature"
                  = true) tools.

End Grouping.

(** ** The script on error handling

    [04-mcp-error-handling]: what the script does with the client, whatever
    the calls to the outside do. *)

Module ErrorHandling.

(** How [Promise.race] of a call and a timer ends. *)
Inductive raced (A : Type) :=
| Won (a : A)
| Lost (reason : string)
| TimedOut.
Arguments Won {A} a.
Arguments Lost {A} reason.
Arguments TimedOut {A}.

(** How the calls to the outside end, in the order the script makes them:
    the constructor of the client and the first [getTools] (in
    [createMCPClientSafely]), the second [getTools], the making of the model
    and of the agent, the query (the contents of the messages of the
    response), the [getTools] of the health check, and [close]. *)
Record world := World {
  construct : completion unit;
  probe : completion nat;
  fetch : completion nat;
  setup : completion unit;
  query : raced (list string);
  health : raced nat;
  close : completion unit
}.

Inductive event :=
| Construct
| GetTools
| CreateAgent (tools : nat)
| Invoke
| Answer (content : string)
| Fallback
| Healthy (isHealthy : bool)
| Critical (reason : string)
| Close
| CloseFailed
| Takeaways.

(** [createMCPClientSafely]: the client, or [null]. *)
Definition createMCPClientSafely (w : world) : bool * list event :=
  match construct w with
  | Throws _ => (false, [Construct])
  | Returns _ =>
      match probe w with
      | Returns _ => (true, [Construct; GetTools])
      | Throws _ => (false, [Construct; GetTools])
      end
  end.

(** [checkMCPHealth] *)
Definition checkMCPHealth (w : world) : bool :=
  match health w with
  | Won tools => bool_decide (0 < tools)
  | Lost _ | TimedOut => false
  end.

(** The block of the outer [try], once the client is there. *)
Definition with_client (w : world) : completion unit * list event :=
  let tools := match fetch w with Returns n => n | Throws _ => 0 end in
  match setup w with
  | Throws reason => (Throws reason, [GetTools])
  | Returns _ =>
      let asked :=
        match query w with
        | Won messages =>
            match last messages with
            | Some content => [Invoke; Answer content]
            | None => [Invoke; Fallback]
            end
        | Lost _ | TimedOut => [Invoke; Fallback]
        end in
      (Returns (),
       [GetTools; CreateAgent tools] ++ asked ++ [GetTools; Healthy (checkMCPHealth w)])
  end.

(** The script: the outer [try], its [catch] and its [finally], and the
    lines after them.  Nothing leaves the three blocks: the [catch] only
    prints, and the [close] of the [finally] has a [try] of its own. *)
Definition script (w : world) : list event :=
  let '(mcpClient, created) := createMCPClientSafely w in
  let '(result, tried) :=
    if mcpClient then with_client w
    else (Throws "No MCP servers available", []) in
  let caught := match result with Throws reason => [Critical reason] | Returns _ => [] end in
  let closing :=
    if mcpClient then
      match close w with Returns _ => [Close] | Throws _ => [Close; CloseFailed] end
    else [] in
  created ++ tried ++ caught ++ closing ++ [Takeaways].

(** What comes after the first [Close]. *)
Fixpoint after_close (es : list event) : list event :=
  match es with
  | [] => []
  | Close :: es' => es'
  | _ :: es' => after_close es'
  end.

Definition is_close (e : event) : bool :=
  match e with Close => true | _ => false end.

(** A use of the client. *)
Definition uses_client (e : event) : bool :=
  match e with GetTools | Invoke | Close => true | _ => false end.

End ErrorHandling.

(** * Properties *)

(** Reduce the projections of a pool that is written out. *)
Ltac fields := cbn [nextIndex results workers trace].

Section Facts.

Variable getServerConfig : string → option ServerConfig.
Variable runExample : string → settled.
Variable runServerExample : string → ServerConfig → settled.
Variable projectRoot : string.

Local Abbreviation relativePath := (relativePath projectRoot).
Local Abbreviation dispatch := (dispatch getServerConfig).
Local Abbreviation settle := (settle runExample runServerExample).

(** ** Traces *)

Lemma claims_app t1 t2 : claims (t1 ++ t2) = claims t1 ++ claims t2.
Proof. apply omap_app. Qed.

Lemma invoked_app t1 t2 : invoked (t1 ++ t2) = invoked t1 ++ invoked t2.
Proof. apply omap_app. Qed.

Lemma awaited_app t1 t2 : awaited (t1 ++ t2) = awaited t1 ++ awaited t2.
Proof. apply omap_app. Qed.

Lemma stores_app t1 t2 : stores (t1 ++ t2) = stores t1 ++ stores t2.
Proof. apply omap_app. Qed.

Lemma printed_app t1 t2 : printed (t1 ++ t2) = printed t1 ++ printed t2.
Proof. apply omap_app. Qed.

Lemma rejections_app t1 t2 : rejections (t1 ++ t2) = rejections t1 ++ rejections t2.
Proof. unfold rejections. by rewrite awaited_app, omap_app. Qed.

Lemma rejections_elem t reason :
  reason ∈ rejections t ↔ ∃ i, (i, Rejected reason) ∈ awaited t.
Proof.
  unfold rejections. rewrite list_elem_of_omap. split.
  - intros ([i [r|reason']] & Hin & Heq); simplify_eq/=. by exists i.
  - intros [i Hin]. by exists (i, Rejected reason).
Qed.

Lemma claims_prints ls : claims (EPrint <$> ls) = [].
Proof. induction ls; auto. Qed.

Lemma invoked_prints ls : invoked (EPrint <$> ls) = [].
Proof. induction ls; auto. Qed.

Lemma awaited_prints ls : awaited (EPrint <$> ls) = [].
Proof. induction ls; auto. Qed.

Lemma stores_prints ls : stores (EPrint <$> ls) = [].
Proof. induction ls; auto. Qed.

Lemma printed_prints ls : printed (EPrint <$> ls) = ls.
Proof. induction ls; simpl; f_equal; auto. Qed.

Lemma claims_cons e t : claims (e :: t) = claims [e] ++ claims t.
Proof. apply (claims_app [e]). Qed.

Lemma invoked_cons e t : invoked (e :: t) = invoked [e] ++ invoked t.
Proof. apply (invoked_app [e]). Qed.

Lemma awaited_cons e t : awaited (e :: t) = awaited [e] ++ awaited t.
Proof. apply (awaited_app [e]). Qed.

Lemma stores_cons e t : stores (e :: t) = stores [e] ++ stores t.
Proof. apply (stores_app [e]). Qed.

(** What the events of a resumed worker add to each record of the trace. *)
Lemma claims_resumed t i o w r ls es :
  claims ((t ++ EAwaited i o :: EStore w i r :: (EPrint <$> ls)) ++ es)
  = claims t ++ claims es.
Proof.
  rewrite !claims_app. f_equal. change (claims t ++ claims (EPrint <$> ls) = claims t).
  by rewrite claims_prints, app_nil_r.
Qed.

Lemma invoked_resumed t i o w r ls es :
  invoked ((t ++ EAwaited i o :: EStore w i r :: (EPrint <$> ls)) ++ es)
  = invoked t ++ invoked es.
Proof.
  rewrite !invoked_app. f_equal. change (invoked t ++ invoked (EPrint <$> ls) = invoked t).
  by rewrite invoked_prints, app_nil_r.
Qed.

Lemma stores_resumed t i o w r ls es :
  stores ((t ++ EAwaited i o :: EStore w i r :: (EPrint <$> ls)) ++ es)
  = stores t ++ (i, (w, r)) :: stores es.
Proof.
  rewrite !stores_app, <- app_assoc. f_equal.
  change ((i, (w, r)) :: stores (EPrint <$> ls) ++ stores es = (i, (w, r)) :: stores es).
  by rewrite stores_prints.
Qed.

Lemma awaited_resumed t i o w r ls es :
  awaited ((t ++ EAwaited i o :: EStore w i r :: (EPrint <$> ls)) ++ es)
  = awaited t ++ (i, o) :: awaited es.
Proof.
  rewrite !awaited_app, <- app_assoc. f_equal.
  change ((i, o) :: awaited (EPrint <$> ls) ++ awaited es = (i, o) :: awaited es).
  by rewrite awaited_prints.
Qed.

(** ** Owned indices *)

Lemma omap_own_cons st ws :
  omap own (st :: ws) = option_list (own st) ++ omap own ws.
Proof. simpl. by destruct (own st). Qed.

Lemma owned_insert (ws : list wstate) w old new :
  ws !! w = Some old →
  omap own (<[w := new]> ws) ++ option_list (own old)
  ≡ₚ option_list (own new) ++ omap own ws.
Proof.
  intros Hw. pose proof (lookup_lt_Some _ _ _ Hw) as Hlt.
  rewrite insert_take_drop by done.
  rewrite <- (take_drop_middle ws w old Hw) at 3.
  rewrite !omap_app, !omap_own_cons. solve_Permutation.
Qed.

Lemma owned_elem (ws : list wstate) w st i :
  ws !! w = Some st → own st = Some i → i ∈ omap own ws.
Proof.
  intros Hw Hi. apply list_elem_of_omap. exists st. split; [|done].
  by eapply list_elem_of_lookup_2.
Qed.

(** ** The pool *)

Section Pool.

Variable files : list string.
Variable concurrency : nat.

Local Abbreviation init := (init files).
Local Abbreviation worker_turn := (worker_turn getServerConfig projectRoot files).
Local Abbreviation report := (report projectRoot files).
Local Abbreviation resume :=
  (resume getServerConfig runExample runServerExample projectRoot files).
Local Abbreviation spawn := (spawn getServerConfig projectRoot files).
Local Abbreviation step :=
  (step getServerConfig runExample runServerExample projectRoot files concurrency).
Local Abbreviation reachable :=
  (reachable getServerConfig runExample runServerExample projectRoot files concurrency).
Local Abbreviation consistent :=
  (consistent getServerConfig runExample runServerExample files concurrency).
Local Abbreviation outcome := (outcome files concurrency).
Local Abbreviation started := (started getServerConfig projectRoot files concurrency).

Lemma worker_turn_more w p :
  nextIndex p < length files →
  worker_turn w p =
    (Pool (S (nextIndex p)) (results p) (workers p)
       (trace p ++ [EClaim w (nextIndex p);
                    EPrint (Starting (nextIndex p + 1) (length files)
                              (relativePath (files !!! nextIndex p)));
                    EInvoke (nextIndex p) (dispatch (files !!! nextIndex p))]),
     Awaiting (nextIndex p)).
Proof.
  intros Hlt. unfold worker_turn, log. case_decide; [lia|].
  simpl. by rewrite <- app_assoc.
Qed.

Lemma worker_turn_done w p :
  length files ≤ nextIndex p →
  worker_turn w p =
    (Pool (S (nextIndex p)) (results p) (workers p)
       (trace p ++ [EClaim w (nextIndex p)]),
     Finished).
Proof. intros Hge. unfold worker_turn. case_decide; [done|lia]. Qed.

(** The three ways a resumed worker goes on. *)
Lemma resume_cases w p p' :
  resume w p = Some p' →
  ∃ i, workers p !! w = Some (Awaiting i) ∧
    ((∃ reason,
        settle (dispatch (files !!! i)) = Rejected reason ∧
        p' = Pool (nextIndex p) (results p)
               (<[w := Threw i reason]> (workers p))
               (trace p ++ [EAwaited i (Rejected reason)])) ∨
     (∃ r,
        settle (dispatch (files !!! i)) = Fulfilled r ∧
        nextIndex p < length files ∧
        p' = Pool (S (nextIndex p)) (<[i := Some r]> (results p))
               (<[w := Awaiting (nextIndex p)]> (workers p))
               ((trace p ++ EAwaited i (Fulfilled r) :: EStore w i r
                         :: (EPrint <$> report i (files !!! i) r))
                ++ [EClaim w (nextIndex p);
                    EPrint (Starting (nextIndex p + 1) (length files)
                              (relativePath (files !!! nextIndex p)));
                    EInvoke (nextIndex p) (dispatch (files !!! nextIndex p))])) ∨
     (∃ r,
        settle (dispatch (files !!! i)) = Fulfilled r ∧
        length files ≤ nextIndex p ∧
        p' = Pool (S (nextIndex p)) (<[i := Some r]> (results p))
               (<[w := Finished]> (workers p))
               ((trace p ++ EAwaited i (Fulfilled r) :: EStore w i r
                         :: (EPrint <$> report i (files !!! i) r))
                ++ [EClaim w (nextIndex p)]))).
Proof.
  unfold resume. intros Hres.
  destruct (workers p !! w) as [[i| |]|] eqn:Hw; try discriminate.
  exists i. split; [done|].
  destruct (settle (dispatch (files !!! i))) as [r|reason] eqn:Hs.
  - right. destruct (decide (nextIndex p < length files)) as [Hlt|Hge].
    + left. exists r. rewrite worker_turn_more in Hres by done.
      simpl in Hres. by inversion Hres.
    + right. exists r. rewrite worker_turn_done in Hres by (simpl; lia).
      simpl in Hres. split; [done|]. split; [lia|]. by inversion Hres.
  - left. exists reason. by inversion Hres.
Qed.

Lemma spawn_eq p :
  nextIndex p < length files →
  spawn p =
    Pool (S (nextIndex p)) (results p) (workers p ++ [Awaiting (nextIndex p)])
      (trace p ++ [EClaim (length (workers p)) (nextIndex p);
                   EPrint (Starting (nextIndex p + 1) (length files)
                             (relativePath (files !!! nextIndex p)));
                   EInvoke (nextIndex p) (dispatch (files !!! nextIndex p))]).
Proof. intros Hlt. unfold spawn. by rewrite worker_turn_more. Qed.

(** ** The invariant holds throughout *)

Lemma consistent_init : consistent init.
Proof.
  split; simpl; try done.
  - apply length_replicate.
  - lia.
  - intros i w r Hin. by apply elem_of_nil in Hin.
  - intros i Hi _. by apply lookup_replicate_2.
Qed.

Lemma take_next p :
  nextIndex p < length files →
  take (S (nextIndex p)) files = take (nextIndex p) files ++ [files !!! nextIndex p].
Proof.
  intros Hlt. apply take_S_r. by apply list_lookup_lookup_total_lt.
Qed.

Lemma invoked_next p :
  nextIndex p < length files →
  imap (λ i file, (i, dispatch file)) (take (S (nextIndex p)) files)
  = imap (λ i file, (i, dispatch file)) (take (nextIndex p) files)
    ++ [(nextIndex p, dispatch (files !!! nextIndex p))].
Proof.
  intros Hlt. rewrite take_next, imap_app by done. simpl.
  rewrite length_take, Nat.min_l by lia. by rewrite Nat.add_0_r.
Qed.

Lemma consistent_spawn p :
  consistent p →
  length (workers p) < concurrency `min` length files →
  consistent (spawn p).
Proof.
  intros [Hres Hwk Hsp Hcl Hinv Hown Hst Hemp Haw Hth Hfin] Hlt.
  assert (nextIndex p < length files) as Hnext by (rewrite Hsp; lia).
  rewrite spawn_eq by done.
  split; fields.
  - done.
  - rewrite length_app. simpl. lia.
  - rewrite length_app. simpl. intros _. rewrite Hsp; lia.
  - rewrite claims_app, fmap_app, Hcl, seq_S. done.
  - rewrite invoked_app, Hinv, invoked_next; done.
  - rewrite Nat.min_l in Hown by lia. rewrite Nat.min_l by lia.
    rewrite seq_S, <- Hown, stores_app, omap_app. simpl.
    rewrite app_nil_r. solve_Permutation.
  - intros i w r. rewrite stores_app, app_nil_r, claims_app.
    intros Hin. destruct (Hst i w r Hin) as (?&?&?).
    repeat split; try done. apply elem_of_app. by left.
  - intros i Hi. rewrite stores_app, app_nil_r. by apply Hemp.
  - intros w i Hw. rewrite claims_app. apply elem_of_app.
    apply lookup_app_Some in Hw as [Hw|[Hge Hw]].
    + left. by apply Haw.
    + right. apply list_lookup_singleton_Some in Hw as [Hz Heq].
      injection Heq as <-. replace w with (length (workers p)) by lia.
      simpl. apply list_elem_of_here.
  - intros w i reason Hw.
    apply lookup_app_Some in Hw as [Hw|[Hge Hw]]; [by eapply Hth|].
    by apply list_lookup_singleton_Some in Hw as [_ ?].
  - intros w Hw.
    apply lookup_app_Some in Hw as [Hw|[Hge Hw]].
    + specialize (Hfin w Hw). lia.
    + by apply list_lookup_singleton_Some in Hw as [_ ?].
Qed.

Lemma owned_insert_same (ws : list wstate) w old new :
  ws !! w = Some old → own new = own old →
  omap own (<[w := new]> ws) = omap own ws.
Proof.
  intros Hw Hown. pose proof (lookup_lt_Some _ _ _ Hw) as Hlt.
  rewrite insert_take_drop by done.
  rewrite <- (take_drop_middle ws w old Hw) at 3.
  by rewrite !omap_app, !omap_own_cons, Hown.
Qed.

(** The index a worker waits for was handed out, is in range and has no
    result yet. *)
Lemma awaiting_fresh p w i :
  consistent p →
  workers p !! w = Some (Awaiting i) →
  i < nextIndex p ∧ i < length files ∧ i ∉ (stores (trace p)).*1.
Proof.
  intros [Hres Hwk Hsp Hcl Hinv Hown Hst Hemp Haw Hth Hfin] Hw.
  assert (i ∈ omap own (workers p)) as Hi by (by eapply owned_elem).
  assert (NoDup (omap own (workers p) ++ (stores (trace p)).*1)) as Hnd.
  { rewrite Hown. apply NoDup_seq. }
  assert (i ∈ seq 0 (nextIndex p `min` length files)) as Hseq.
  { rewrite <- Hown. apply elem_of_app. by left. }
  apply elem_of_seq in Hseq. apply NoDup_app in Hnd as (_ & Hdisj & _).
  repeat split; try lia. by apply Hdisj.
Qed.

Lemma consistent_resume p w p' :
  consistent p →
  length (workers p) = concurrency `min` length files →
  resume w p = Some p' →
  consistent p'.
Proof.
  intros Hp Hfull Hr.
  apply resume_cases in Hr as (i & Hw & Hcases).
  destruct (awaiting_fresh p w i Hp Hw) as (Hinext & HiN & Hifresh).
  destruct Hp as [Hres Hwk Hsp Hcl Hinv Hown Hst Hemp Haw Hth Hfin].
  pose proof (lookup_lt_Some _ _ _ Hw) as Hwlt.
  destruct Hcases as [(reason & Hs & ->)|[(r & Hs & Hnext & ->)|(r & Hs & Hnext & ->)]];
    split; fields; rewrite ?length_insert; try done; try lia.
  - by rewrite claims_app, app_nil_r.
  - by rewrite invoked_app, app_nil_r.
  - rewrite stores_app, app_nil_r.
    by rewrite (owned_insert_same _ _ (Awaiting i)).
  - intros k w' r'. rewrite stores_app, claims_app, !app_nil_r. apply Hst.
  - intros k Hk. rewrite stores_app, app_nil_r. by apply Hemp.
  - intros w' k Hw'. rewrite claims_app, app_nil_r.
    apply list_lookup_insert_Some in Hw' as [(_&?&_)|(_&Hw')]; [done|by apply Haw].
  - intros w' k reason' Hw'.
    apply list_lookup_insert_Some in Hw' as [(_&Heq&_)|(_&Hw')]; [|by eapply Hth].
    by injection Heq as <- <-.
  - intros w' Hw'.
    apply list_lookup_insert_Some in Hw' as [(_&?&_)|(_&Hw')]; [done|by eapply Hfin].
  - (* the worker claims the next file *)
    by rewrite claims_resumed, fmap_app, Hcl, seq_S.
  - by rewrite invoked_resumed, Hinv, invoked_next.
  - rewrite Nat.min_l in Hown by lia. rewrite Nat.min_l by lia.
    rewrite stores_resumed, fmap_app, seq_S, <- Hown.
    pose proof (owned_insert _ _ _ (Awaiting (nextIndex p)) Hw) as Hperm.
    simpl in *.
    transitivity ((omap own (<[w:=Awaiting (nextIndex p)]> (workers p)) ++ [i])
                  ++ (stores (trace p)).*1); [solve_Permutation|].
    rewrite Hperm. solve_Permutation.
  - intros k w' r'. rewrite stores_resumed, claims_resumed. simpl.
    rewrite elem_of_app, list_elem_of_singleton. intros [Hin| Heq].
    + destruct (Hst k w' r' Hin) as (?&?&?).
      assert (k ≠ i).
      { intros ->. apply Hifresh. apply list_elem_of_fmap. by exists (i, (w', r')). }
      rewrite list_lookup_insert_ne by done. repeat split; try done.
      apply elem_of_app. by left.
    + injection Heq as -> -> ->. repeat split; try done.
      * apply list_lookup_insert_eq. lia.
      * apply elem_of_app. left. by apply Haw.
  - intros k Hk. rewrite stores_resumed, fmap_app. simpl.
    rewrite elem_of_app, list_elem_of_singleton. intros Hnot.
    rewrite list_lookup_insert_ne by (intros ->; apply Hnot; by right).
    apply Hemp; [done|]. intros ?. apply Hnot. by left.
  - intros w' k Hw'. rewrite claims_resumed. simpl. apply elem_of_app.
    apply list_lookup_insert_Some in Hw' as [(<-&Heq&_)|(_&Hw')].
    + injection Heq as <-. right. apply list_elem_of_here.
    + left. by apply Haw.
  - intros w' k reason' Hw'.
    apply list_lookup_insert_Some in Hw' as [(_&?&_)|(_&Hw')]; [done|by eapply Hth].
  - intros w' Hw'.
    apply list_lookup_insert_Some in Hw' as [(_&?&_)|(_&Hw')]; [done|].
    specialize (Hfin w' Hw'). lia.
  - (* no file is left *)
    by rewrite claims_resumed, fmap_app, Hcl, seq_S.
  - rewrite invoked_resumed, Hinv, app_nil_r.
    by rewrite !take_ge by lia.
  - rewrite Nat.min_r in Hown by lia. rewrite Nat.min_r by lia.
    rewrite stores_resumed, fmap_app, <- Hown.
    pose proof (owned_insert _ _ _ Finished Hw) as Hperm.
    simpl in *.
    transitivity ((omap own (<[w:=Finished]> (workers p)) ++ [i])
                  ++ (stores (trace p)).*1); [solve_Permutation|].
    rewrite Hperm. solve_Permutation.
  - intros k w' r'. rewrite stores_resumed, claims_resumed. simpl.
    rewrite elem_of_app, list_elem_of_singleton. intros [Hin| Heq].
    + destruct (Hst k w' r' Hin) as (?&?&?).
      assert (k ≠ i).
      { intros ->. apply Hifresh. apply list_elem_of_fmap. by exists (i, (w', r')). }
      rewrite list_lookup_insert_ne by done. repeat split; try done.
      apply elem_of_app. by left.
    + injection Heq as -> -> ->. repeat split; try done.
      * apply list_lookup_insert_eq. lia.
      * apply elem_of_app. left. by apply Haw.
  - intros k Hk. rewrite stores_resumed, fmap_app. simpl.
    rewrite elem_of_app, list_elem_of_singleton. intros Hnot.
    rewrite list_lookup_insert_ne by (intros ->; apply Hnot; by right).
    apply Hemp; [done|]. intros ?. apply Hnot. by left.
  - intros w' k Hw'. rewrite claims_resumed. simpl. apply elem_of_app.
    apply list_lookup_insert_Some in Hw' as [(_&?&_)|(_&Hw')]; [done|].
    left. by apply Haw.
  - intros w' k reason' Hw'.
    apply list_lookup_insert_Some in Hw' as [(_&?&_)|(_&Hw')]; [done|by eapply Hth].
Qed.

(** Induction along a run. *)
Lemma run_ind (P : pool → Prop) :
  P init →
  (∀ p, reachable p → P p →
        length (workers p) < concurrency `min` length files → P (spawn p)) →
  (∀ p w p', reachable p → P p →
             length (workers p) = concurrency `min` length files →
             resume w p = Some p' → P p') →
  ∀ p, reachable p → P p.
Proof.
  intros Hinit Hspawn Hresume. apply rtc_ind_r; [done|].
  intros p p' Hp Hstep IH. inversion Hstep; subst; eauto.
Qed.

Lemma reachable_consistent p : reachable p → consistent p.
Proof.
  revert p. apply run_ind.
  - apply consistent_init.
  - intros. by apply consistent_spawn.
  - intros. by eapply consistent_resume.
Qed.

(** ** Workers that ended by an exception *)

Lemma thrown_lookup ws reason :
  thrown ws = Some reason → ∃ w i, ws !! w = Some (Threw i reason).
Proof.
  induction ws as [|st ws IH]; [done|]. simpl.
  destruct st as [i| |i reason'].
  - intros Hth. destruct (IH Hth) as (w & j & Hw). by exists (S w), j.
  - intros Hth. destruct (IH Hth) as (w & j & Hw). by exists (S w), j.
  - intros [= ->]. by exists 0, i.
Qed.

Lemma threw_thrown ws w i reason :
  ws !! w = Some (Threw i reason) → is_Some (thrown ws).
Proof.
  revert w. induction ws as [|st ws IH]; intros w Hw; [done|].
  destruct w as [|w]; simpl in *.
  - injection Hw as ->. by eexists.
  - destruct st; eauto.
Qed.

(** The workers that ended by an exception are those whose [await] threw. *)
Lemma threw_awaited p :
  reachable p →
  ∀ i reason, (∃ w, workers p !! w = Some (Threw i reason))
              ↔ (i, Rejected reason) ∈ awaited (trace p).
Proof.
  revert p.
  apply (run_ind (λ p, ∀ i reason, (∃ w, workers p !! w = Some (Threw i reason))
                                   ↔ (i, Rejected reason) ∈ awaited (trace p))).
  - intros i reason. split; [by intros [w ?]|by intros ?%elem_of_nil].
  - intros p Hp IH Hlt i reason.
    pose proof (inv_spawning _ _ _ _ _ _ (reachable_consistent p Hp) Hlt) as Hsp.
    rewrite spawn_eq by lia. fields. rewrite awaited_app, app_nil_r, <- IH.
    split; intros [w Hw].
    + apply lookup_app_Some in Hw as [Hw|[_ Hw]]; [by exists w|].
      by apply list_lookup_singleton_Some in Hw as [_ ?].
    + exists w. by apply lookup_app_l_Some.
  - intros p w p' Hp IH Hfull Hr i reason.
    apply resume_cases in Hr as (i0 & Hw & Hcases).
    assert (∀ st, (∀ k reason', st ≠ Threw k reason') →
              (∃ w', <[w:=st]> (workers p) !! w' = Some (Threw i reason))
              ↔ (∃ w', workers p !! w' = Some (Threw i reason))) as Hother.
    { intros st Hst. split; intros [w' Hw'].
      - apply list_lookup_insert_Some in Hw' as [(_ & Heq & _)|(_ & Hw')];
          [by destruct (Hst i reason)|by exists w'].
      - exists w'. rewrite list_lookup_insert_ne; [done|]. intros ->. congruence. }
    destruct Hcases as [(reason0 & Hs & ->)|[(r & Hs & Hnext & ->)|(r & Hs & Hnext & ->)]];
      fields.
    + rewrite awaited_app, elem_of_app, <- IH. simpl. rewrite list_elem_of_singleton.
      split.
      * intros [w' Hw'].
        apply list_lookup_insert_Some in Hw' as [(_ & Heq & _)|(_ & Hw')].
        -- right. by injection Heq as <- <-.
        -- left. by exists w'.
      * intros [[w' Hw']|Heq].
        -- exists w'. rewrite list_lookup_insert_ne; [done|]. intros ->. congruence.
        -- injection Heq as -> ->. exists w. apply list_lookup_insert_eq.
           by eapply lookup_lt_Some.
    + rewrite awaited_resumed, elem_of_app, Hother, <- IH by done. simpl.
      rewrite list_elem_of_singleton. split; [by left|]. by intros [?|?].
    + rewrite awaited_resumed, elem_of_app, Hother, <- IH by done. simpl.
      rewrite list_elem_of_singleton. split; [by left|]. by intros [?|?].
Qed.

Lemma crashed_rejections p :
  reachable p → thrown (workers p) = None ↔ rejections (trace p) = [].
Proof.
  intros Hp. pose proof (threw_awaited p Hp) as Hta. split.
  - intros Hth. destruct (rejections (trace p)) as [|reason l] eqn:Hrej; [done|].
    assert (reason ∈ rejections (trace p)) as Hin
        by (rewrite Hrej; apply list_elem_of_here).
    apply rejections_elem in Hin as [i Hin]. apply Hta in Hin as [w Hw].
    apply threw_thrown in Hw as [? Hw]. congruence.
  - intros Hrej. destruct (thrown (workers p)) as [reason|] eqn:Hth; [|done].
    apply thrown_lookup in Hth as (w & i & Hw).
    assert (reason ∈ rejections (trace p)) as Hin.
    { apply rejections_elem. exists i. apply Hta. by exists w. }
    rewrite Hrej in Hin. by apply elem_of_nil in Hin.
Qed.

(** A worker that ended by an exception awaited a promise that was rejected,
    and the slot of its file stays empty. *)
Lemma threw_rejected p w i reason :
  reachable p → workers p !! w = Some (Threw i reason) →
  i < length files
  ∧ settle (dispatch (files !!! i)) = Rejected reason
  ∧ (i ∉ (stores (trace p)).*1)
  ∧ results p !! i = Some None.
Proof.
  intros Hp Hw. pose proof (reachable_consistent p Hp) as Hc.
  pose proof (inv_threw _ _ _ _ _ _ Hc _ _ _ Hw) as Hrej.
  assert (i ∈ omap own (workers p)) as Hi by (by eapply owned_elem).
  pose proof (inv_owned _ _ _ _ _ _ Hc) as Hown.
  assert (NoDup (omap own (workers p) ++ (stores (trace p)).*1)) as Hnd.
  { rewrite Hown. apply NoDup_seq. }
  assert (i ∈ seq 0 (nextIndex p `min` length files)) as Hseq.
  { rewrite <- Hown. apply elem_of_app. by left. }
  apply elem_of_seq in Hseq. apply NoDup_app in Hnd as (_ & Hdisj & _).
  split; [lia|]. split; [done|]. split; [by apply Hdisj|].
  apply (inv_empty _ _ _ _ _ _ Hc); [lia|]. by apply Hdisj.
Qed.

(** ** Runner calls in flight *)

Lemma inflight_cons st ws :
  inflight (st :: ws) = option_list (waiting st) ++ inflight ws.
Proof. unfold inflight. simpl. by destruct (waiting st). Qed.

Lemma inflight_length ws : length (inflight ws) ≤ length ws.
Proof.
  induction ws as [|st ws IH]; [done|].
  rewrite inflight_cons, length_app. destruct st; simpl; lia.
Qed.

Lemma inflight_insert ws w i st :
  ws !! w = Some (Awaiting i) →
  length (inflight (<[w := st]> ws)) + 1
  = length (inflight ws) + length (option_list (waiting st)).
Proof.
  intros Hw. pose proof (lookup_lt_Some _ _ _ Hw) as Hlt.
  rewrite insert_take_drop by done.
  rewrite <- (take_drop_middle ws w _ Hw) at 3.
  unfold inflight. rewrite !omap_app. fold (inflight (st :: drop (S w) ws)).
  fold (inflight (Awaiting i :: drop (S w) ws)).
  rewrite !inflight_cons, !length_app. simpl. lia.
Qed.

Lemma inflight_awaiting ws w i :
  ws !! w = Some (Awaiting i) → 1 ≤ length (inflight ws).
Proof.
  intros Hw. rewrite <- (take_drop_middle ws w _ Hw).
  unfold inflight. rewrite omap_app, length_app. simpl. lia.
Qed.

(** What a resumed worker does, seen from the runner calls: one promise is
    awaited, then at most one call is made. *)
Lemma resume_flight w p p' :
  resume w p = Some p' →
  ∃ i o es st,
    workers p !! w = Some (Awaiting i) ∧
    trace p' = trace p ++ EAwaited i o :: es ∧
    workers p' = <[w := st]> (workers p) ∧
    awaited es = [] ∧
    length (invoked es) = length (option_list (waiting st)).
Proof.
  intros Hr. apply resume_cases in Hr as (i & Hw & Hcases).
  exists i.
  destruct Hcases as [(reason & Hs & ->)|[(r & Hs & Hnext & ->)|(r & Hs & Hnext & ->)]];
    fields.
  - exists (Rejected reason), [], (Threw i reason). done.
  - eexists (Fulfilled r), _, (Awaiting (nextIndex p)).
    split; [done|]. split; [by rewrite <- app_assoc|]. split; [done|].
    simpl. rewrite awaited_app, invoked_app, awaited_prints, invoked_prints. done.
  - eexists (Fulfilled r), _, Finished.
    split; [done|]. split; [by rewrite <- app_assoc|]. split; [done|].
    simpl. rewrite awaited_app, invoked_app, awaited_prints, invoked_prints. done.
Qed.

Lemma prefix_app_cases {A} (t' t es : list A) :
  t' `prefix_of` t ++ es →
  t' `prefix_of` t ∨ ∃ es', t' = t ++ es' ∧ es' `prefix_of` es.
Proof.
  revert t'. induction t as [|x t IH]; intros t' Hpre.
  - right. by exists t'.
  - destruct t' as [|y t'']; [left; apply prefix_nil|].
    simpl in Hpre. pose proof (prefix_cons_inv_1 _ _ _ _ Hpre) as ->.
    apply prefix_cons_inv_2 in Hpre.
    destruct (IH _ Hpre) as [Hl|(es' & -> & Hes')].
    + left. by apply prefix_cons.
    + right. by exists es'.
Qed.

Lemma invoked_prefix t' t :
  t' `prefix_of` t → length (invoked t') ≤ length (invoked t).
Proof. intros [k ->]. rewrite invoked_app, length_app. lia. Qed.

Lemma awaited_prefix t' t :
  t' `prefix_of` t → length (awaited t') ≤ length (awaited t).
Proof. intros [k ->]. rewrite awaited_app, length_app. lia. Qed.

Lemma flight p :
  reachable p →
  length (invoked (trace p))
  = length (awaited (trace p)) + length (inflight (workers p))
  ∧ ∀ t', t' `prefix_of` trace p →
          flight_within (concurrency `min` length files) t'.
Proof.
  revert p.
  assert (∀ p, reachable p →
    (length (invoked (trace p))
     = length (awaited (trace p)) + length (inflight (workers p))
     ∧ ∀ t', t' `prefix_of` trace p →
             flight_within (concurrency `min` length files) t') →
    consistent p ∧ length (inflight (workers p)) ≤ length (workers p)
    ∧ length (awaited (trace p)) ≤ length (invoked (trace p))
      ≤ length (awaited (trace p)) + concurrency `min` length files) as Hfacts.
  { intros p Hp [IHeq IHpre]. split; [by apply reachable_consistent|].
    split; [apply inflight_length|]. by apply (IHpre (trace p)). }
  apply run_ind.
  - split; [done|]. intros t' Hpre. apply prefix_nil_inv in Hpre as ->.
    unfold flight_within. simpl. lia.
  - intros p Hp IH Hlt. destruct (Hfacts p Hp IH) as (Hc & Hfl & Hnow).
    destruct IH as [IHeq IHpre].
    + assert (nextIndex p < length files) as Hnext
          by (rewrite (inv_spawning _ _ _ _ _ _ Hc); lia).
      rewrite spawn_eq by done. fields. split.
      * rewrite invoked_app, awaited_app, !length_app.
        unfold inflight. rewrite omap_app, length_app. fold (inflight (workers p)).
        simpl. lia.
      * intros t' Hpre. apply prefix_app_cases in Hpre as [Hpre|(es' & -> & Hes')].
        { by apply IHpre. }
        unfold flight_within. rewrite invoked_app, awaited_app, !length_app.
        apply invoked_prefix in Hes' as Hi. apply awaited_prefix in Hes' as Ha.
        simpl in Hi, Ha. lia.
  - intros p w p' Hp IH Hfull Hr. destruct (Hfacts p Hp IH) as (Hc & Hfl & Hnow).
    destruct IH as [IHeq IHpre].
    + apply resume_flight in Hr as (i & o & es & st & Hw & -> & -> & Haw & Hinv).
      pose proof (inflight_insert _ _ _ st Hw) as Hins.
      pose proof (inflight_awaiting _ _ _ Hw) as Hpos.
      split.
      * rewrite invoked_app, awaited_app, (invoked_cons (EAwaited i o)),
          (awaited_cons (EAwaited i o)), !length_app, Haw. simpl. lia.
      * intros t' Hpre. apply prefix_app_cases in Hpre as [Hpre|(es' & -> & Hes')].
        { by apply IHpre. }
        unfold flight_within. rewrite invoked_app, awaited_app, !length_app.
        destruct es' as [|e es'']; [simpl; lia|].
        pose proof (prefix_cons_inv_1 _ _ _ _ Hes') as ->.
        apply prefix_cons_inv_2 in Hes'.
        apply invoked_prefix in Hes' as Hi. apply awaited_prefix in Hes' as Ha.
        rewrite (invoked_cons (EAwaited i o)), (awaited_cons (EAwaited i o)), !length_app.
        rewrite Haw in Ha. simpl in *. destruct st; simpl in *; lia.
Qed.

(** ** How a run ends *)

Lemma resume_workers w p p' :
  resume w p = Some p' → length (workers p') = length (workers p).
Proof.
  intros Hr. apply resume_flight in Hr as (i & o & es & st & _ & _ & -> & _).
  apply length_insert.
Qed.

Lemma spawn_count p :
  length (workers (spawn p)) = S (length (workers p))
  ∧ awaited (trace (spawn p)) = awaited (trace p).
Proof.
  unfold spawn, worker_turn, log.
  case_decide; fields; rewrite length_app, ?awaited_app; simpl;
    rewrite ?app_nil_r; split; (done || lia).
Qed.

Lemma steps_count n p :
  nsteps step n init p → n = length (workers p) + length (awaited (trace p)).
Proof.
  revert p. induction n as [|n IH]; intros p Hn.
  - by inversion Hn.
  - apply nsteps_inv_r in Hn as (q & Hq & Hstep). apply IH in Hq.
    inversion Hstep as [p0 Hlt|w p0 p0' Hfull Hr]; subst.
    + destruct (spawn_count q) as [-> ->]. lia.
    + pose proof (resume_workers _ _ _ Hr) as Hlen.
      apply resume_flight in Hr as (i & o & es & st & _ & Ht & _ & Haw & _).
      rewrite Hlen, Ht, awaited_app, (awaited_cons (EAwaited i o)), !length_app, Haw.
      simpl. lia.
Qed.

Lemma awaited_bound p : reachable p → length (awaited (trace p)) ≤ length files.
Proof.
  intros Hp. destruct (flight p Hp) as [_ Hpre].
  specialize (Hpre (trace p) (reflexivity _)). unfold flight_within in Hpre.
  pose proof (reachable_consistent p Hp) as Hc.
  pose proof (inv_invoked _ _ _ _ _ _ Hc) as Hinv.
  rewrite Hinv, length_imap, length_take in Hpre. lia.
Qed.

(** A run has at most [min concurrency N + N] steps. *)
Lemma run_length n p :
  nsteps step n init p → n ≤ concurrency `min` length files + length files.
Proof.
  intros Hn. pose proof (steps_count n p Hn) as ->.
  assert (reachable p) as Hp by (by eapply rtc_nsteps_2).
  pose proof (awaited_bound p Hp).
  pose proof (inv_workers _ _ _ _ _ _ (reachable_consistent p Hp)). lia.
Qed.

Lemma workers_cases ws :
  is_Some (thrown ws)
  ∨ (∃ w i, ws !! w = Some (Awaiting i))
  ∨ forallb is_finished ws = true.
Proof.
  induction ws as [|st ws IH]; [by right; right|].
  destruct st as [i| |i reason].
  - right. left. by exists 0, i.
  - destruct IH as [?|[(w & i & Hw)|?]]; [by left| |by right; right].
    right. left. by exists (S w), i.
  - left. by eexists.
Qed.

Lemma resumable w p i :
  workers p !! w = Some (Awaiting i) → is_Some (resume w p).
Proof.
  intros Hw. unfold resume. rewrite Hw.
  destruct (settle _); [|by eexists]. destruct (worker_turn _ _). by eexists.
Qed.

(** A run that has not ended can take a step. *)
Lemma progress p :
  reachable p → (∃ p', step p p') ∨ (∃ o, outcome p = Some o).
Proof.
  intros Hp. pose proof (inv_workers _ _ _ _ _ _ (reachable_consistent p Hp)) as Hle.
  destruct (decide (length (workers p) = concurrency `min` length files)) as [Hfull|Hne].
  - destruct (workers_cases (workers p)) as [[reason Hth]|[(w & i & Hw)|Hfin]].
    + right. unfold outcome. rewrite decide_True by done.
      destruct (rejections (trace p)) as [|reason' l] eqn:Hrej; [|by eexists].
      apply crashed_rejections in Hrej; [congruence|done].
    + left. destruct (resumable w p i Hw) as [p' Hr]. exists p'.
      by eapply step_resume.
    + right. unfold outcome. rewrite decide_True by done. rewrite Hfin.
      destruct (head _); by eexists.
  - left. exists (spawn p). apply step_spawn. lia.
Qed.

Lemma all_finished ws w st :
  forallb is_finished ws = true → ws !! w = Some st → st = Finished.
Proof.
  revert w. induction ws as [|st' ws IH]; intros w Hall Hw; [done|].
  simpl in Hall. apply andb_prop in Hall as [Hst Hall].
  destruct w as [|w]; simpl in Hw.
  - injection Hw as <-. by destruct st'.
  - by eapply IH.
Qed.

(** A pool that has returned takes no further step. *)
Lemma ended p rs p' : outcome p = Some (Returns rs) → ¬ step p p'.
Proof.
  unfold outcome. case_decide as Hfull; [|done].
  intros Ho Hstep. inversion Hstep as [p0 Hlt|w p0 p0' _ Hr]; subst; [lia|].
  destruct (head (rejections (trace p))); [done|].
  destruct (forallb is_finished (workers p)) eqn:Hfin; [|done].
  apply resume_cases in Hr as (i & Hw & _).
  by pose proof (all_finished _ _ _ Hfin Hw).
Qed.

(** Once [Promise.all] is rejected, the reason stays, whatever the workers
    still do. *)
Lemma thrown_stays p p' reason :
  step p p' → outcome p = Some (Throws reason) → outcome p' = Some (Throws reason).
Proof.
  unfold outcome. intros Hstep. case_decide as Hfull; [|done].
  inversion Hstep as [p0 Hlt|w p0 p0' _ Hr]; subst; [lia|].
  rewrite (resume_workers _ _ _ Hr), decide_True by done.
  apply resume_flight in Hr as (i & o & es & st & _ & -> & _).
  rewrite rejections_app. destruct (rejections (trace p)) as [|r l]; simpl; [|done].
  by destruct (forallb _ _).
Qed.

Lemma finished_owned ws : forallb is_finished ws = true → omap own ws = [].
Proof. induction ws as [|[]]; simpl; done. Qed.

(** With at least one worker allowed, a pool that returns has stored a result
    for every file: each index once, in the slot of that index. *)
Lemma returns_complete p rs :
  1 ≤ concurrency →
  reachable p →
  outcome p = Some (Returns rs) →
  rs = results p
  ∧ (stores (trace p)).*1 ≡ₚ seq 0 (length files)
  ∧ length files ≤ nextIndex p
  ∧ ∀ i file, files !! i = Some file →
      ∃ r, settle (dispatch file) = Fulfilled r ∧ rs !! i = Some (Some r).
Proof.
  intros HK Hp Ho. pose proof (reachable_consistent p Hp) as Hc.
  unfold outcome in Ho. case_decide as Hfull; [|done].
  destruct (head (rejections (trace p))); [done|].
  destruct (forallb is_finished (workers p)) eqn:Hfin; [|done].
  injection Ho as <-.
  assert (length files ≤ nextIndex p) as Hnext.
  { destruct (workers p) as [|st ws] eqn:Hws.
    - simpl in Hfull. destruct files; simpl in *; lia.
    - apply (inv_finished _ _ _ _ _ _ Hc 0). rewrite Hws.
      by rewrite (all_finished (st :: ws) 0 st Hfin). }
  pose proof (inv_owned _ _ _ _ _ _ Hc) as Hown.
  rewrite finished_owned, Nat.min_r in Hown by done. simpl in Hown.
  repeat split; try done.
  intros i file Hi.
  assert (i ∈ (stores (trace p)).*1) as Hin.
  { rewrite Hown. apply elem_of_seq. apply lookup_lt_Some in Hi. lia. }
  apply list_elem_of_fmap in Hin as ([k [w r]] & -> & Hin). simpl in *.
  destruct (inv_stored _ _ _ _ _ _ Hc _ _ _ Hin) as (Hs & Hr & _).
  exists r. split; [|done].
  by rewrite (list_lookup_total_correct _ _ _ Hi) in Hs.
Qed.

(** ** Executable runs *)

Lemma spawned n :
  n ≤ concurrency `min` length files →
  reachable (Nat.iter n spawn init) ∧ length (workers (Nat.iter n spawn init)) = n.
Proof.
  induction n as [|n IH]; intros Hn; [split; [apply rtc_refl|done]|].
  destruct IH as [Hp Hlen]; [lia|]. simpl.
  pose proof (reachable_consistent _ Hp) as Hc.
  assert (step (Nat.iter n spawn init) (spawn (Nat.iter n spawn init))) as Hstep.
  { apply step_spawn. lia. }
  split; [by eapply rtc_r|].
  rewrite spawn_eq; fields.
  - rewrite length_app, Hlen. simpl. lia.
  - rewrite (inv_spawning _ _ _ _ _ _ Hc); lia.
Qed.

Lemma started_reachable :
  reachable started ∧ length (workers started) = concurrency `min` length files.
Proof. by apply spawned. Qed.

(** The [for] loop is over before any promise is awaited: it leaves the
    pool with [min concurrency N] workers, worker [w] waiting for the runner
    of file [w]. *)
Lemma spawned_workers n :
  n ≤ concurrency `min` length files →
  workers (Nat.iter n spawn init) = Awaiting <$> seq 0 n
  ∧ nextIndex (Nat.iter n spawn init) = n.
Proof.
  induction n as [|n IH]; intros Hn; [done|].
  destruct IH as [Hws Hnext]; [lia|].
  change (Nat.iter (S n) spawn init) with (spawn (Nat.iter n spawn init)).
  rewrite spawn_eq by lia. fields.
  by rewrite Hws, Hnext, seq_S, fmap_app.
Qed.

Lemma settle_in_order_reachable order p :
  reachable p →
  length (workers p) = concurrency `min` length files →
  reachable (settle_in_order getServerConfig runExample runServerExample
               projectRoot files order p).
Proof.
  revert p. induction order as [|w order IH]; intros p Hp Hfull; [done|].
  simpl. destruct (resume w p) as [p'|] eqn:Hr; [|by apply IH].
  apply IH.
  - eapply rtc_r; [done|]. by eapply step_resume.
  - by rewrite (resume_workers _ _ _ Hr).
Qed.

(** ** Claims and stores *)

Lemma fst_functional {A B} (l : list (A * B)) x y1 y2 :
  NoDup (l.*1) → (x, y1) ∈ l → (x, y2) ∈ l → y1 = y2.
Proof.
  induction l as [|[a b] l IH]; intros Hnd H1 H2; [by apply elem_of_nil in H1|].
  simpl in Hnd. apply NoDup_cons in Hnd as [Hnotin Hnd].
  apply elem_of_cons in H1 as [H1|H1]; apply elem_of_cons in H2 as [H2|H2].
  - congruence.
  - injection H1 as -> ->. destruct Hnotin.
    apply list_elem_of_fmap. by exists (a, y2).
  - injection H2 as -> ->. destruct Hnotin.
    apply list_elem_of_fmap. by exists (a, y1).
  - by apply IH.
Qed.

Lemma claims_nodup p : reachable p → NoDup ((claims (trace p)).*1).
Proof.
  intros Hp. rewrite (inv_claims _ _ _ _ _ _ (reachable_consistent p Hp)).
  apply NoDup_seq.
Qed.

Lemma stores_nodup p : reachable p → NoDup ((stores (trace p)).*1).
Proof.
  intros Hp.
  pose proof (inv_owned _ _ _ _ _ _ (reachable_consistent p Hp)) as Hown.
  assert (NoDup (omap own (workers p) ++ (stores (trace p)).*1)) as Hnd.
  { rewrite Hown. apply NoDup_seq. }
  by apply NoDup_app in Hnd as (_ & _ & ?).
Qed.

(** Every index handed out so far went to exactly one worker. *)
Lemma claimed_once p i :
  reachable p → i < nextIndex p →
  ∃ w, (i, w) ∈ claims (trace p) ∧ ∀ w', (i, w') ∈ claims (trace p) → w' = w.
Proof.
  intros Hp Hi.
  pose proof (inv_claims _ _ _ _ _ _ (reachable_consistent p Hp)) as Hcl.
  assert (i ∈ (claims (trace p)).*1) as Hin.
  { rewrite Hcl. apply elem_of_seq. lia. }
  apply list_elem_of_fmap in Hin as ([k w] & -> & Hin). simpl.
  exists w. split; [done|]. intros w' Hin'.
  eapply fst_functional; [by apply claims_nodup|done..].
Qed.

(** An exception in a worker is the rejection of the promise it waited for. *)
Lemma thrown_rejected p reason :
  reachable p → thrown (workers p) = Some reason →
  ∃ i file, files !! i = Some file ∧ settle (dispatch file) = Rejected reason
            ∧ results p !! i = Some None.
Proof.
  intros Hp Hth. apply thrown_lookup in Hth as (w & i & Hw).
  destruct (threw_rejected p w i reason Hp Hw) as (Hi & Hrej & _ & Hslot).
  exists i, (files !!! i). split; [by apply list_lookup_lookup_total_lt|done].
Qed.

Lemma no_throw p :
  Forall (fulfils getServerConfig runExample runServerExample) files →
  reachable p → thrown (workers p) = None.
Proof.
  intros Hful Hp. destruct (thrown (workers p)) as [reason|] eqn:Hth; [|done].
  apply thrown_rejected in Hth as (i & file & Hi & Hrej & _); [|done].
  rewrite Forall_lookup in Hful. specialize (Hful i file Hi).
  unfold fulfils in Hful. rewrite Hrej in Hful. by destruct Hful.
Qed.

Lemma no_rejection p :
  Forall (fulfils getServerConfig runExample runServerExample) files →
  reachable p → rejections (trace p) = [].
Proof. intros Hful Hp. apply crashed_rejections; [done|]. by apply no_throw. Qed.

(** With at least one worker allowed, the array returned is the list of the
    files' results. *)
Lemma returns_results p rs :
  1 ≤ concurrency → reachable p → outcome p = Some (Returns rs) →
  rs = (λ file, fulfilment (settle (dispatch file))) <$> files.
Proof.
  intros HK Hp Ho. pose proof (inv_results _ _ _ _ _ _ (reachable_consistent p Hp)) as Hlen.
  destruct (returns_complete p rs HK Hp Ho) as (-> & _ & _ & Hslots).
  apply list_eq. intros i. rewrite list_lookup_fmap.
  destruct (files !! i) as [file|] eqn:Hi; simpl.
  - destruct (Hslots i file Hi) as (r & Hs & ->). by rewrite Hs.
  - apply lookup_ge_None. apply lookup_ge_None in Hi. lia.
Qed.

(** C1: for every file list and every limit of at least one, with runners
    that give a result, [runTestsWithConcurrency] returns (no run goes on for
    ever, and a run that cannot go on has returned), and whatever the order in
    which the promises settled, the array returned has one slot per file,
    slot [i] holds the result of file [i], every index was claimed by exactly
    one worker, and every slot was written exactly once, by the worker that
    claimed it; at no point of a run is a slot written twice.  In particular
    the executable pool gives the list of the files' results for every order
    of completion it is run with. *)
Theorem C1_slot_alignment :
  1 ≤ concurrency →
  Forall (fulfils getServerConfig runExample runServerExample) files →
  (∀ n p, nsteps step n init p →
          n ≤ concurrency `min` length files + length files)
  ∧ (∀ p, reachable p →
          (∃ p', step p p') ∨ (∃ rs, outcome p = Some (Returns rs)))
  ∧ (∀ p rs, reachable p → outcome p = Some (Returns rs) →
       length rs = length files
       ∧ (∀ i file, files !! i = Some file →
            ∃ r, settle (dispatch file) = Fulfilled r ∧ rs !! i = Some (Some r))
       ∧ (∀ i, i < length files →
            ∃ w, (i, w) ∈ claims (trace p)
                 ∧ ∀ w', (i, w') ∈ claims (trace p) → w' = w)
       ∧ (stores (trace p)).*1 ≡ₚ seq 0 (length files))
  ∧ (∀ p, reachable p →
       NoDup ((stores (trace p)).*1)
       ∧ ∀ i w r, (i, (w, r)) ∈ stores (trace p) →
           (i, w) ∈ claims (trace p)
           ∧ settle (dispatch (files !!! i)) = Fulfilled r
           ∧ results p !! i = Some (Some r))
  ∧ (∀ order o,
       runTestsWithConcurrency getServerConfig runExample runServerExample
         projectRoot files concurrency order = Some o →
       o = Returns ((λ file, fulfilment (settle (dispatch file))) <$> files)).
Proof.
  intros HK Hful. split; [apply run_length|]. split; [|split; [|split]]; cycle 3.
  { intros order o Ho. unfold runTestsWithConcurrency in Ho.
    destruct started_reachable as [Hs Hlen].
    pose proof (settle_in_order_reachable order _ Hs Hlen) as Hp.
    destruct o as [rs|reason].
    - f_equal. by eapply returns_results.
    - unfold outcome in Ho. case_decide; [|done].
      rewrite (no_rejection _ Hful Hp) in Ho. by destruct (forallb _ _). }
  - intros p Hp. destruct (progress p Hp) as [?|[o Ho]]; [by left|right].
    unfold outcome in *. case_decide; [|done].
    rewrite (no_rejection p Hful Hp) in *. simpl in *.
    destruct (forallb is_finished (workers p)); [by eexists|done].
  - intros p rs Hp Ho.
    destruct (returns_complete p rs HK Hp Ho) as (-> & Hst & Hnext & Hslots).
    split; [apply (inv_results _ _ _ _ _ _ (reachable_consistent p Hp))|].
    split; [done|]. split; [|done].
    intros i Hi. apply claimed_once; [done|lia].
  - intros p Hp. split; [by apply stores_nodup|].
    intros i w r Hin.
    destruct (inv_stored _ _ _ _ _ _ (reachable_consistent p Hp) _ _ _ Hin)
      as (?&?&?).
    done.
Qed.

(** ** The claim cursor *)

Lemma prefix_of_seq l n : l `prefix_of` seq 0 n → l = seq 0 (length l).
Proof.
  intros [k Hk].
  assert (take (length l) (seq 0 n) = l) as Htake.
  { rewrite Hk. by rewrite take_app_length. }
  rewrite take_seq in Htake. rewrite <- Htake at 1. f_equal.
  apply (f_equal length) in Hk. rewrite length_seq, length_app in Hk. lia.
Qed.

Lemma claims_prefix t' t : t' `prefix_of` t → (claims t').*1 `prefix_of` (claims t).*1.
Proof. intros [k ->]. rewrite claims_app, fmap_app. by eexists. Qed.

(** A step hands out no index (the awaited promise was rejected) or the one
    under the cursor, which moves on by one. *)
Lemma step_claims p q :
  reachable p → step p q →
  (nextIndex q = nextIndex p ∧ claims (trace q) = claims (trace p))
  ∨ (nextIndex q = S (nextIndex p)
     ∧ ∃ w, claims (trace q) = claims (trace p) ++ [(nextIndex p, w)]).
Proof.
  intros Hp Hstep. pose proof (reachable_consistent p Hp) as Hc.
  inversion Hstep as [p0 Hlt|w p0 p0' Hfull Hr]; subst.
  - right. rewrite spawn_eq by (rewrite (inv_spawning _ _ _ _ _ _ Hc); lia).
    fields. split; [done|]. rewrite claims_app. by eexists.
  - apply resume_cases in Hr as (i & Hw & Hcases).
    destruct Hcases as [(reason & Hs & ->)|[(r & Hs & Hnext & ->)|(r & Hs & Hnext & ->)]];
      fields.
    + left. by rewrite claims_app, app_nil_r.
    + right. split; [done|]. rewrite claims_resumed. by eexists.
    + right. split; [done|]. rewrite claims_resumed. by eexists.
Qed.

(** C10: the claim cursor starts at 0; a worker reads and increments it in
    one stretch, whenever it comes to the head of its loop, and so claims the
    index the cursor was at; the [for] loop leaves it at the number of workers
    it started.  A step moves it on by exactly one when it claims, handing out
    the index it was at, and not at all when it claims nothing (the awaited
    promise was rejected).  So at every point of a run, also at the points
    inside a step and after a promise was rejected, the indices claimed are
    0, 1, ..., nextIndex - 1 in this order, and the j-th runner call of the
    run is the call for the j-th file of the list. *)
Theorem C10_claims_in_discovery_order p :
  reachable p →
  nextIndex init = 0
  ∧ (claims (trace p)).*1 = seq 0 (nextIndex p)
  ∧ (∀ t', t' `prefix_of` trace p → (claims t').*1 = seq 0 (length (claims t')))
  ∧ (∀ j i call, invoked (trace p) !! j = Some (i, call) →
       i = j ∧ j < nextIndex p ∧ ∃ file, files !! j = Some file ∧ call = dispatch file)
  ∧ (∀ q, step p q →
       (nextIndex q = nextIndex p ∧ claims (trace q) = claims (trace p))
       ∨ (nextIndex q = S (nextIndex p)
          ∧ ∃ w, claims (trace q) = claims (trace p) ++ [(nextIndex p, w)]))
  ∧ (∀ w, nextIndex (worker_turn w p).1 = S (nextIndex p)
          ∧ claims (trace (worker_turn w p).1) = claims (trace p) ++ [(nextIndex p, w)])
  ∧ nextIndex started = concurrency `min` length files
  ∧ (claims (trace started)).*1 = seq 0 (concurrency `min` length files).
Proof.
  intros Hp. pose proof (reachable_consistent p Hp) as Hc.
  pose proof (inv_claims _ _ _ _ _ _ Hc) as Hcl.
  split; [done|]. split; [done|]. split; [|split; [|split; [|split; [|split]]]].
  - intros t' Hpre. apply claims_prefix in Hpre. rewrite Hcl in Hpre.
    apply prefix_of_seq in Hpre. by rewrite length_fmap in Hpre.
  - intros j i call Hj. rewrite (inv_invoked _ _ _ _ _ _ Hc) in Hj.
    apply list_lookup_imap_Some in Hj as (file & Hfile & Heq).
    injection Heq as -> ->. apply lookup_take_Some in Hfile as [Hfile Hlt].
    repeat split; try done. by exists file.
  - intros q Hstep. by apply step_claims.
  - intros w. unfold worker_turn, log. case_decide; cbn [fst]; fields.
    + by rewrite claims_app.
    + split; [done|]. by rewrite !claims_app, app_nil_r.
  - by destruct (spawned_workers (concurrency `min` length files)).
  - destruct started_reachable as [Hs _].
    rewrite (inv_claims _ _ _ _ _ _ (reachable_consistent _ Hs)).
    f_equal. by destruct (spawned_workers (concurrency `min` length files)).
Qed.

(** ** The bound on concurrent runs *)

Lemma awaited_full p :
  reachable p → awaited (trace p) ≠ [] →
  length (workers p) = concurrency `min` length files.
Proof.
  revert p.
  apply (run_ind (λ p, awaited (trace p) ≠ [] →
                       length (workers p) = concurrency `min` length files)).
  - done.
  - intros p Hp IH Hlt Hne. rewrite (proj2 (spawn_count p)) in Hne.
    specialize (IH Hne). lia.
  - intros p w p' Hp IH Hfull Hr _. by rewrite (resume_workers _ _ _ Hr).
Qed.

Lemma inflight_awaiting_all l : inflight (Awaiting <$> l) = l.
Proof. induction l as [|i l IH]; [done|]. rewrite fmap_cons, inflight_cons, IH. done. Qed.

Lemma spawning_on n m :
  n ≤ m → m ≤ concurrency `min` length files →
  rtc step (Nat.iter n spawn init) (Nat.iter m spawn init).
Proof.
  intros Hnm. induction Hnm as [|m Hnm IH]; intros Hm; [apply rtc_refl|].
  eapply rtc_r; [apply IH; lia|]. simpl. apply step_spawn.
  destruct (spawned m) as [_ ->]; lia.
Qed.

(** A pool is on its way to [started], or a run from it. *)
Lemma spawn_phase p :
  reachable p →
  (length (workers p) < concurrency `min` length files
   ∧ p = Nat.iter (length (workers p)) spawn init)
  ∨ (length (workers p) = concurrency `min` length files ∧ rtc step started p).
Proof.
  revert p. apply run_ind.
  - destruct (decide (0 < concurrency `min` length files)) as [Hpos|Hz].
    + left. by split.
    + right. split; [simpl; lia|]. unfold started.
      replace (concurrency `min` length files) with 0 by lia. apply rtc_refl.
  - intros p Hp [[_ Heq]|[Hfull _]] Hlt; [|lia].
    destruct (spawn_count p) as [Hlen _].
    set (n := length (workers p)) in *.
    assert (spawn p = Nat.iter (S n) spawn init) as Hsp by (simpl; by rewrite <- Heq).
    destruct (decide (S n < concurrency `min` length files)) as [Hmore|Hdone].
    + left. split; [lia|]. by rewrite Hlen.
    + right. split; [lia|]. rewrite Hsp. unfold started.
      replace (concurrency `min` length files) with (S n) by lia. apply rtc_refl.
  - intros p w p' Hp [[Hlt _]|[_ Hrun]] Hfull Hr; [lia|].
    right. split; [by rewrite (resume_workers _ _ _ Hr)|].
    eapply rtc_r; [done|]. by eapply step_resume.
Qed.

Lemma started_on p :
  rtc step started p → length (workers p) = concurrency `min` length files.
Proof.
  revert p. apply rtc_ind_r; [apply started_reachable|].
  intros p q _ Hstep IH.
  inversion Hstep as [p0 Hlt|w p0 p0' _ Hr]; subst; [lia|].
  by rewrite (resume_workers _ _ _ Hr).
Qed.

Lemma inflight_owned ws : inflight ws `sublist_of` omap own ws.
Proof.
  induction ws as [|st ws IH]; [done|].
  rewrite inflight_cons, omap_own_cons.
  destruct st; simpl; [by apply sublist_skip|done|by apply sublist_cons].
Qed.

(** C3: at every point of a run of the pool (also at the points inside a
    step, and also after a promise was rejected) the runner calls whose
    promise was not awaited yet are at most [concurrency].  The [for] loop
    starts exactly [min concurrency N] workers, one after the other and before
    any promise is awaited, worker [w] with the runner of file [w], so that
    this many calls are in flight when it is over; no worker is started
    afterwards.  The calls in flight are the ones the suspended workers wait
    for, one per worker at most and no file twice, each made for the index
    the worker claimed; and every runner call was made for an index a worker
    claimed. *)
Theorem C3_at_most_K_in_flight p :
  reachable p →
  (∀ t', t' `prefix_of` trace p → flight_within concurrency t')
  ∧ reachable started
  ∧ workers started = Awaiting <$> seq 0 (concurrency `min` length files)
  ∧ inflight (workers started) = seq 0 (concurrency `min` length files)
  ∧ (length (workers p) < concurrency `min` length files →
       p = Nat.iter (length (workers p)) spawn init
       ∧ awaited (trace p) = []
       ∧ rtc step p started)
  ∧ (length (workers p) = concurrency `min` length files ↔ rtc step started p)
  ∧ length (workers p) ≤ concurrency `min` length files
  ∧ length (invoked (trace p))
    = length (awaited (trace p)) + length (inflight (workers p))
  ∧ length (inflight (workers p)) ≤ length (workers p)
  ∧ NoDup (inflight (workers p))
  ∧ (∀ w i, workers p !! w = Some (Awaiting i) →
       (i, w) ∈ claims (trace p)
       ∧ (i, dispatch (files !!! i)) ∈ invoked (trace p))
  ∧ (∀ i call, (i, call) ∈ invoked (trace p) → ∃ w, (i, w) ∈ claims (trace p)).
Proof.
  intros Hp. pose proof (reachable_consistent p Hp) as Hc.
  destruct (flight p Hp) as [Heq Hpre].
  destruct (spawned_workers (concurrency `min` length files)) as [Hws _]; [done|].
  split; [|split; [|split; [|split; [|split; [|split; [|split; [|split; [|split;
    [|split; [|split]]]]]]]]]].
  - intros t' Ht'. specialize (Hpre t' Ht'). unfold flight_within in *. lia.
  - apply started_reachable.
  - exact Hws.
  - unfold started in *. rewrite Hws. apply inflight_awaiting_all.
  - intros Hlt. destruct (spawn_phase p Hp) as [[_ Hiter]|[Hfull _]]; [|lia].
    split; [done|]. split.
    + destruct (awaited (trace p)) as [|a l] eqn:Haw; [done|].
      assert (awaited (trace p) ≠ []) as Hne by (by rewrite Haw).
      apply awaited_full in Hne; [lia|done].
    + rewrite Hiter at 1. apply spawning_on; lia.
  - split; [|apply started_on]. intros Hfull.
    destruct (spawn_phase p Hp) as [[Hlt _]|[_ Hrun]]; [lia|done].
  - apply (inv_workers _ _ _ _ _ _ Hc).
  - done.
  - apply inflight_length.
  - pose proof (inv_owned _ _ _ _ _ _ Hc) as Hown.
    assert (NoDup (omap own (workers p) ++ (stores (trace p)).*1)) as Hnd.
    { rewrite Hown. apply NoDup_seq. }
    apply NoDup_app in Hnd as (Hnd & _).
    eapply sublist_NoDup; [exact Hnd|apply inflight_owned].
  - intros w i Hw. split; [by apply (inv_awaiting _ _ _ _ _ _ Hc)|].
    destruct (awaiting_fresh p w i Hc Hw) as (Hi & HiN & _).
    rewrite (inv_invoked _ _ _ _ _ _ Hc). apply list_elem_of_lookup. exists i.
    rewrite list_lookup_imap, lookup_take_lt by done.
    by rewrite (list_lookup_lookup_total_lt files i HiN).
  - intros i call Hin. apply list_elem_of_lookup in Hin as [j Hj].
    rewrite (inv_invoked _ _ _ _ _ _ Hc) in Hj.
    apply list_lookup_imap_Some in Hj as (file & Hfile & Hcall).
    injection Hcall as -> ->. apply lookup_take_Some in Hfile as [Hfile Hlt].
    destruct (claimed_once p j Hp Hlt) as (w & Hw & _). by exists w.
Qed.

(** ** Further properties of the pool *)

(** From a pool that has [m] steps left at most, a run reaches its end. *)
Lemma run_completes_within m : ∀ n p,
  nsteps step n init p →
  concurrency `min` length files + length files - n ≤ m →
  ∃ p' o, rtc step p p' ∧ outcome p' = Some o.
Proof.
  induction m as [|m IH]; intros n p Hn Hm.
  - assert (reachable p) as Hp by (by eapply rtc_nsteps_2).
    destruct (progress p Hp) as [[p' Hstep]|[o Ho]].
    + pose proof (run_length (S n) p' (nsteps_r _ _ _ _ Hn Hstep)). lia.
    + exists p, o. split; [apply rtc_refl|done].
  - assert (reachable p) as Hp by (by eapply rtc_nsteps_2).
    destruct (progress p Hp) as [[p' Hstep]|[o Ho]].
    + destruct (IH (S n) p' (nsteps_r _ _ _ _ Hn Hstep)) as (q & o & Hq & Ho); [lia|].
      exists q, o. split; [by eapply rtc_l|done].
    + exists p, o. split; [apply rtc_refl|done].
Qed.

(** With runners that give a result, every run is a prefix of one that
    returns. *)
Lemma run_returns p :
  Forall (fulfils getServerConfig runExample runServerExample) files →
  reachable p →
  ∃ p' rs, rtc step p p' ∧ outcome p' = Some (Returns rs).
Proof.
  intros Hful Hp. destruct (rtc_nsteps_1 _ _ Hp) as [n Hn].
  destruct (run_completes_within (concurrency `min` length files + length files) n p Hn)
    as (p' & o & Hrun & Ho); [lia|].
  assert (reachable p') as Hp' by (by eapply rtc_trans).
  destruct o as [rs|reason]; [by exists p', rs|].
  unfold outcome in Ho. case_decide; [|done].
  rewrite (no_rejection p' Hful Hp') in Ho. by destruct (forallb _ _).
Qed.

(** The executable pool follows the steps: every run from [started] is the
    run of some order of completion. *)
Lemma settle_in_order_snoc order : ∀ w p p',
  resume w (settle_in_order getServerConfig runExample runServerExample projectRoot
              files order p) = Some p' →
  settle_in_order getServerConfig runExample runServerExample projectRoot
    files (order ++ [w]) p = p'.
Proof.
  induction order as [|w0 order IH]; intros w p p' Hr; simpl in *.
  - by rewrite Hr.
  - destruct (resume w0 p); by apply IH.
Qed.

Lemma run_as_order p :
  rtc step started p →
  ∃ order, settle_in_order getServerConfig runExample runServerExample projectRoot
             files order started = p.
Proof.
  revert p. apply rtc_ind_r; [by exists []|].
  intros p q Hrun Hstep [order Horder].
  inversion Hstep as [p0 Hlt|w p0 p0' _ Hr]; subst.
  - pose proof (started_on _ Hrun). lia.
  - exists (order ++ [w]). by apply settle_in_order_snoc.
Qed.

Lemma thrown_insert_same ws w i st :
  ws !! w = Some (Awaiting i) → thrown [st] = None →
  thrown (<[w := st]> ws) = thrown ws.
Proof.
  revert w. induction ws as [|st' ws IH]; intros w Hw Hst; [done|].
  destruct w as [|w]; simpl in *.
  - injection Hw as ->. by destruct st.
  - destruct st'; try done; by apply IH.
Qed.

(** A worker that ended by an exception stays so and claims no more. *)
Lemma threw_stays p q w i reason :
  length (workers p) = concurrency `min` length files →
  step p q →
  workers p !! w = Some (Threw i reason) →
  workers q !! w = Some (Threw i reason)
  ∧ ∀ j, (j, w) ∈ claims (trace q) → (j, w) ∈ claims (trace p).
Proof.
  intros Hfull Hstep Hw. inversion Hstep as [p0 Hlt|w' p0 p0' _ Hr]; subst; [lia|].
  apply resume_cases in Hr as (i0 & Hw' & Hcases).
  assert (w' ≠ w) as Hne by (intros ->; congruence).
  destruct Hcases as [(reason0 & Hs & ->)|[(r & Hs & Hnext & ->)|(r & Hs & Hnext & ->)]];
    fields; (split; [by rewrite list_lookup_insert_ne|]); intros j.
  - by rewrite claims_app, app_nil_r.
  - rewrite claims_resumed. simpl. rewrite elem_of_app, list_elem_of_singleton.
    by intros [?|[= _ ?]].
  - rewrite claims_resumed. simpl. rewrite elem_of_app, list_elem_of_singleton.
    by intros [?|[= _ ?]].
Qed.

Lemma threw_for_good p q w i reason :
  rtc step p q →
  length (workers p) = concurrency `min` length files →
  workers p !! w = Some (Threw i reason) →
  length (workers q) = concurrency `min` length files
  ∧ workers q !! w = Some (Threw i reason)
  ∧ ∀ j, (j, w) ∈ claims (trace q) → (j, w) ∈ claims (trace p).
Proof.
  induction 1 as [p|p q r Hstep _ IH]; intros Hfull Hw; [done|].
  destruct (threw_stays p q w i reason Hfull Hstep Hw) as [Hw' Hcl].
  assert (length (workers q) = concurrency `min` length files) as Hfull'.
  { inversion Hstep as [p0 Hlt|w' p0 p0' _ Hr]; subst; [lia|].
    by rewrite (resume_workers _ _ _ Hr). }
  destruct (IH Hfull' Hw') as (Hlen & Hwr & Hclr). auto.
Qed.

Lemma thrown_for_good p p' reason :
  rtc step p p' → outcome p = Some (Throws reason) → outcome p' = Some (Throws reason).
Proof.
  induction 1 as [|p q r Hstep _ IH]; [done|].
  intros Ho. apply IH. by eapply thrown_stays.
Qed.

(** The pool always ends: whatever the runners do and whatever the order in
    which their promises settle, a run that has not returned or thrown can
    take a step, every run is a prefix of a run that returns or throws, and
    no run has more than [min concurrency N + N] steps.  A pool that has
    returned does not move any more; one that has thrown may, but what it has
    thrown stays. *)
Theorem pool_always_ends p :
  reachable p →
  ((∃ p', step p p') ∨ (∃ o, outcome p = Some o))
  ∧ (∃ p' o, rtc step p p' ∧ outcome p' = Some o)
  ∧ (∀ n, nsteps step n init p → n ≤ concurrency `min` length files + length files)
  ∧ (∀ rs, outcome p = Some (Returns rs) → ∀ p', ¬ step p p')
  ∧ (∀ reason p', outcome p = Some (Throws reason) → rtc step p p' →
       outcome p' = Some (Throws reason)).
Proof.
  intros Hp. split; [by apply progress|]. split; [|split; [|split]].
  - destruct (rtc_nsteps_1 _ _ Hp) as [n Hn].
    apply (run_completes_within (concurrency `min` length files + length files) n);
      [done|lia].
  - intros n. apply run_length.
  - intros rs Ho p'. by eapply ended.
  - intros reason p' Ho Hrun. by eapply thrown_for_good.
Qed.

Lemma all_awaiting_inflight ws :
  (∀ w st, ws !! w = Some st → ∃ i, st = Awaiting i) →
  length (inflight ws) = length ws.
Proof.
  induction ws as [|st ws IH]; intros Hall; [done|].
  rewrite inflight_cons, length_app.
  destruct (Hall 0 st eq_refl) as [i ->]. simpl. f_equal.
  apply IH. intros w st' Hw. by apply (Hall (S w)).
Qed.

(** While files are left to claim, every worker of the pool is busy: once the
    workers are started, as long as no worker has thrown and the cursor has
    not reached the end of the list, each of the [min concurrency N] workers
    waits for the runner of a file of its own. *)
Theorem pool_saturated p :
  reachable p →
  length (workers p) = concurrency `min` length files →
  crashed p = false →
  nextIndex p < length files →
  length (inflight (workers p)) = concurrency `min` length files
  ∧ ∀ w, w < concurrency `min` length files →
         ∃ i, workers p !! w = Some (Awaiting i) ∧ i < nextIndex p
              ∧ results p !! i = Some None.
Proof.
  intros Hp Hfull Hcr Hnext. pose proof (reachable_consistent p Hp) as Hc.
  assert (∀ w st, workers p !! w = Some st → ∃ i, st = Awaiting i) as Hall.
  { intros w [i| |i reason] Hw.
    - by exists i.
    - pose proof (inv_finished _ _ _ _ _ _ Hc w Hw). lia.
    - apply threw_thrown in Hw as [reason' Hth].
      unfold crashed in Hcr. by rewrite Hth in Hcr. }
  split; [by rewrite all_awaiting_inflight|].
  intros w Hw. rewrite <- Hfull in Hw.
  destruct (lookup_lt_is_Some_2 _ _ Hw) as [st Hst].
  destruct (Hall w st Hst) as [i ->]. exists i. split; [done|].
  destruct (awaiting_fresh p w i Hc Hst) as (Hi & HiN & Hfresh).
  split; [done|]. by apply (inv_empty _ _ _ _ _ _ Hc).
Qed.

Lemma retired_cons st ws :
  retired (st :: ws) = (if is_finished st then 1 else 0) + retired ws.
Proof. unfold retired. rewrite filter_cons. destruct st; simpl; done. Qed.

Lemma retired_app ws1 ws2 : retired (ws1 ++ ws2) = retired ws1 + retired ws2.
Proof. unfold retired. by rewrite filter_app, length_app. Qed.

Lemma retired_insert ws w i st :
  ws !! w = Some (Awaiting i) →
  retired (<[w := st]> ws) = retired ws + (if is_finished st then 1 else 0).
Proof.
  intros Hw. pose proof (lookup_lt_Some _ _ _ Hw) as Hlt.
  rewrite insert_take_drop by done.
  rewrite <- (take_drop_middle ws w _ Hw) at 3.
  rewrite !retired_app, !retired_cons. simpl. lia.
Qed.

Lemma retired_all ws : forallb is_finished ws = true → retired ws = length ws.
Proof.
  induction ws as [|st ws IH]; [done|]. simpl. intros [Hst Hws]%andb_prop.
  rewrite retired_cons, Hst, IH by done. done.
Qed.

Lemma retired_le ws : retired ws ≤ length ws.
Proof.
  induction ws as [|st ws IH]; [done|]. rewrite retired_cons.
  destruct (is_finished st); simpl; lia.
Qed.

(** Every claim either started a runner or ended a worker. *)
Lemma cursor_split p :
  reachable p →
  nextIndex p = length (invoked (trace p)) + retired (workers p).
Proof.
  revert p. apply run_ind.
  - done.
  - intros p Hp IH Hlt.
    pose proof (inv_spawning _ _ _ _ _ _ (reachable_consistent p Hp) Hlt) as Hsp.
    rewrite spawn_eq by lia. fields.
    rewrite invoked_app, length_app, retired_app, retired_cons. simpl.
    unfold retired at 2. simpl. lia.
  - intros p w p' Hp IH Hfull Hr.
    apply resume_cases in Hr as (i & Hw & Hcases).
    destruct Hcases as [(reason & Hs & ->)|[(r & Hs & Hnext & ->)|(r & Hs & Hnext & ->)]];
      fields.
    + rewrite invoked_app, app_nil_r, (retired_insert _ _ i) by done. simpl. lia.
    + rewrite invoked_resumed, length_app, (retired_insert _ _ i) by done. simpl. lia.
    + rewrite invoked_resumed, app_nil_r, (retired_insert _ _ i) by done. simpl. lia.
Qed.

(** The cursor goes past the end of the list by one for each worker that has
    left its loop, and no further: it is at most [N + min concurrency N]
    throughout, also in what the workers do after a promise was rejected, it
    is beyond [N - 1] exactly when some worker has left, and when the pool
    returns with a limit of one at least it is [N + min concurrency N]. *)
Theorem cursor_overshoot p :
  reachable p →
  nextIndex p ≤ length files + concurrency `min` length files
  ∧ nextIndex p = nextIndex p `min` length files + retired (workers p)
  ∧ (nextIndex p < length files → retired (workers p) = 0)
  ∧ (∀ rs, 1 ≤ concurrency → outcome p = Some (Returns rs) →
       nextIndex p = length files + concurrency `min` length files).
Proof.
  intros Hp. pose proof (reachable_consistent p Hp) as Hc.
  pose proof (cursor_split p Hp) as Hsplit.
  pose proof (inv_invoked _ _ _ _ _ _ Hc) as Hinv.
  rewrite Hinv, length_imap, length_take in Hsplit.
  pose proof (retired_le (workers p)).
  pose proof (inv_workers _ _ _ _ _ _ Hc).
  split; [lia|]. split; [lia|]. split; [lia|].
  intros rs HK Ho.
  destruct (returns_complete p rs HK Hp Ho) as (_ & _ & Hnext & _).
  unfold outcome in Ho. case_decide as Hfull; [|done].
  destruct (head (rejections (trace p))); [done|].
  destruct (forallb is_finished (workers p)) eqn:Hfin; [|done].
  rewrite (retired_all _ Hfin) in Hsplit. lia.
Qed.

Lemma starting_lines_app ls1 ls2 :
  starting_lines (ls1 ++ ls2) = starting_lines ls1 ++ starting_lines ls2.
Proof. apply filter_app. Qed.

Lemma verdict_lines_app ls1 ls2 :
  verdict_lines (ls1 ++ ls2) = verdict_lines ls1 ++ verdict_lines ls2.
Proof. apply filter_app. Qed.

Lemma report_lines i r :
  starting_lines (report i (files !!! i) r) = []
  ∧ verdict_lines (report i (files !!! i) r) = [verdict_line projectRoot files i r].
Proof.
  unfold report, verdict_line. destruct (success r); [done|].
  destruct (truthy (error r)); done.
Qed.

Lemma printed_resumed t i o w r ls es :
  printed ((t ++ EAwaited i o :: EStore w i r :: (EPrint <$> ls)) ++ es)
  = printed t ++ ls ++ printed es.
Proof.
  rewrite !printed_app, <- app_assoc. f_equal.
  change (printed (EPrint <$> ls) ++ printed es = ls ++ printed es).
  by rewrite printed_prints.
Qed.

(** The lines of the parallel script, at every point of a run, also after a
    promise was rejected: the "Starting" lines printed so far are those of
    the files claimed so far, in the order of the list and numbered from 1;
    the "Passed" and "Failed" lines printed so far are, one for one and in
    this order, the lines of the results stored so far, "Passed" exactly for
    a success, each with the number of its file. *)
Theorem lines_follow_run p :
  reachable p →
  starting_lines (printed (trace p))
  = imap (λ i file, Starting (i + 1) (length files) (relativePath file))
      (take (nextIndex p) files)
  ∧ verdict_lines (printed (trace p))
    = (λ s, verdict_line projectRoot files s.1 s.2.2) <$> stores (trace p).
Proof.
  revert p. apply run_ind.
  - split; [|done]. by rewrite take_0.
  - intros p Hp [IHs IHv] Hlt.
    pose proof (inv_spawning _ _ _ _ _ _ (reachable_consistent p Hp) Hlt) as Hsp.
    assert (nextIndex p < length files) as Hnext by lia.
    rewrite spawn_eq by done. fields.
    rewrite printed_app, starting_lines_app, verdict_lines_app, stores_app, IHs, IHv.
    split; [|by rewrite fmap_app, !app_nil_r].
    rewrite take_next, imap_app by done. simpl.
    rewrite length_take, Nat.min_l by lia. by rewrite Nat.add_0_r.
  - intros p w p' Hp [IHs IHv] Hfull Hr.
    apply resume_cases in Hr as (i & Hw & Hcases).
    destruct Hcases as [(reason & Hs & ->)|[(r & Hs & Hnext & ->)|(r & Hs & Hnext & ->)]];
      fields.
    + rewrite printed_app, stores_app, !app_nil_r. done.
    + rewrite printed_resumed, stores_resumed, !starting_lines_app, !verdict_lines_app.
      destruct (report_lines i r) as [-> ->]. rewrite IHs, IHv, fmap_app.
      split; [|done]. simpl.
      rewrite take_next, imap_app by done. simpl.
      rewrite length_take, Nat.min_l by lia. by rewrite Nat.add_0_r.
    + rewrite printed_resumed, stores_resumed, !starting_lines_app, !verdict_lines_app.
      destruct (report_lines i r) as [-> ->]. rewrite IHs, IHv, fmap_app.
      split; [|by rewrite app_nil_r]. simpl.
      by rewrite !app_nil_r, !take_ge by lia.
Qed.

(** With no worker to start (a limit of 0, or no file), the pool does not
    move: nothing is claimed, no runner is called, and it returns the array
    it allocated, every slot of which is empty; the exit status the parallel
    script computes from such an array is 0. *)
Theorem pool_without_workers :
  concurrency `min` length files = 0 →
  (∀ p, reachable p → p = init)
  ∧ outcome init = Some (Returns (replicate (length files) None))
  ∧ (∀ order,
       runTestsWithConcurrency getServerConfig runExample runServerExample
         projectRoot files concurrency order
       = Some (Returns (replicate (length files) None)))
  ∧ failed_count (replicate (length files) None) = 0
  ∧ exit_status (Returns (replicate (length files) None)) = 0.
Proof.
  intros HW.
  assert (∀ p, ¬ step init p) as Hstuck.
  { intros p Hstep. inversion Hstep as [p0 Hlt|w p0 p0' Hfull Hr]; subst.
    - simpl in Hlt. lia.
    - unfold resume in Hr. simpl in Hr. done. }
  assert (failed_count (replicate (length files) None) = 0) as Hfc.
  { generalize (length files). intros n. unfold failed_count, js_filter.
    induction n as [|n IH]; [done|]. simpl. exact IH. }
  split; [|split; [|split; [|split]]].
  - intros p Hp. destruct (rtc_inv _ _ Hp) as [->|(q & Hstep & _)]; [done|].
    by destruct (Hstuck q).
  - unfold outcome. simpl. rewrite HW. by rewrite decide_True.
  - intros order. unfold runTestsWithConcurrency, started. rewrite HW. simpl.
    assert (settle_in_order getServerConfig runExample runServerExample projectRoot
              files order init = init) as ->.
    { induction order as [|w order IH]; [done|]. simpl. done. }
    unfold outcome. simpl. rewrite HW. by rewrite decide_True.
  - done.
  - simpl. rewrite Hfc. by rewrite decide_False by lia.
Qed.

End Pool.

(** ** The sequential loop *)

Section Sequential.

Local Abbreviation run_loop :=
  (run_loop getServerConfig runExample runServerExample projectRoot).
Local Abbreviation run_sequential :=
  (run_sequential getServerConfig runExample runServerExample projectRoot).
Local Abbreviation seq_segment :=
  (seq_segment getServerConfig runExample runServerExample projectRoot).
Local Abbreviation fulfils := (fulfils getServerConfig runExample runServerExample).
Local Abbreviation result_of := (λ file, fulfilment (settle (dispatch file))).

Lemma segment_fulfilled total i file r :
  settle (dispatch file) = Fulfilled r →
  seq_segment total i file
  = [EPrint (Progress (i + 1) total (relativePath file)); EInvoke i (dispatch file)]
    ++ EAwaited i (Fulfilled r) :: EStore 0 i r :: (EPrint <$> seq_report r).
Proof. intros Hs. unfold seq_segment. by rewrite Hs. Qed.

Lemma segment_rejected total i file reason :
  settle (dispatch file) = Rejected reason →
  seq_segment total i file
  = [EPrint (Progress (i + 1) total (relativePath file)); EInvoke i (dispatch file);
     EAwaited i (Rejected reason)].
Proof. intros Hs. unfold seq_segment. by rewrite Hs. Qed.

Lemma segments_cons total i file rest :
  mjoin (imap (λ k file, seq_segment total (i + k) file) (file :: rest))
  = seq_segment total i file
    ++ mjoin (imap (λ k file, seq_segment total (S i + k) file) rest).
Proof.
  rewrite imap_cons, Nat.add_0_r.
  change (mjoin (?a :: ?l)) with (a ++ mjoin l). do 2 f_equal.
  apply imap_ext. intros k x _. simpl. f_equal. lia.
Qed.

(** The loop visits the files in order and stops at the first rejection. *)
Lemma run_loop_trace rest : ∀ total i s s' thrown,
  run_loop total i rest s = (s', thrown) →
  ∃ n, n ≤ length rest ∧ (thrown = None → n = length rest) ∧
    seq_trace s'
    = seq_trace s
      ++ mjoin (imap (λ k file, seq_segment total (i + k) file) (take n rest)).
Proof.
  induction rest as [|file rest IH]; intros total i s s' thrown Hrun; simpl in Hrun.
  - injection Hrun as <- <-. exists 0. by rewrite app_nil_r.
  - destruct (settle (dispatch file)) as [r|reason] eqn:Hs.
    + apply IH in Hrun as (n & Hn & Hall & Ht). exists (S n).
      split; [simpl; lia|]. split; [intros ?; simpl; f_equal; auto|].
      change (take (S n) (file :: rest)) with (file :: take n rest).
      rewrite segments_cons, (segment_fulfilled _ _ _ r Hs), Ht.
      cbn [seq_trace]. by rewrite <- !app_assoc.
    + injection Hrun as <- <-. exists 1. split; [simpl; lia|]. split; [done|].
      change (take 1 (file :: rest)) with (file :: take 0 rest).
      rewrite segments_cons, (segment_rejected _ _ _ reason Hs), take_0.
      cbn [seq_trace]. simpl. by rewrite <- !app_assoc.
Qed.

(** When the loop ends without an exception, every file had a result, the
    results were pushed in order, and the counters count them. *)
Lemma run_loop_returns rest : ∀ total i s s',
  run_loop total i rest s = (s', None) →
  Forall fulfils rest
  ∧ seq_results s' = seq_results s ++ omap result_of rest
  ∧ passed s' = passed s + length (filter (λ r, success r = true) (omap result_of rest))
  ∧ failed s'
    = failed s + length (filter (λ r, negb (success r) = true) (omap result_of rest)).
Proof.
  induction rest as [|file rest IH]; intros total i s s' Hrun; simpl in Hrun.
  - injection Hrun as <-. simpl. rewrite app_nil_r. repeat split; (done || lia).
  - destruct (settle (dispatch file)) as [r|reason] eqn:Hs; [|done].
    apply IH in Hrun as (Hful & Hres & Hpass & Hfail). simpl in *.
    rewrite Hs. simpl. split; [|split; [|split]].
    + constructor; [|done]. unfold fulfils. rewrite Hs. by eexists.
    + by rewrite Hres, <- app_assoc.
    + rewrite Hpass, filter_cons.
      destruct (success r); case_decide; simpl; (done || lia).
    + rewrite Hfail, filter_cons.
      destruct (success r); case_decide; simpl in *; (done || lia).
Qed.

Lemma run_loop_fulfilled rest : ∀ total i s,
  Forall fulfils rest → ∃ s', run_loop total i rest s = (s', None).
Proof.
  induction rest as [|file rest IH]; intros total i s Hful; simpl.
  - by eexists.
  - apply Forall_cons in Hful as [Hfile Hful]. unfold fulfils in Hfile.
    destruct (settle (dispatch file)) as [r|reason]; [by apply IH|].
    by destruct Hfile.
Qed.

(** An exception that leaves the loop is the rejection of a runner's promise. *)
Lemma run_loop_throws rest : ∀ total i s s' reason,
  run_loop total i rest s = (s', Some reason) →
  ∃ file, file ∈ rest ∧ settle (dispatch file) = Rejected reason.
Proof.
  induction rest as [|file rest IH]; intros total i s s' reason Hrun; simpl in Hrun.
  - done.
  - destruct (settle (dispatch file)) as [r|reason'] eqn:Hs.
    + apply IH in Hrun as (file' & Hin & Hrej). exists file'.
      split; [by apply elem_of_cons; right|done].
    + injection Hrun as <- <-. exists file. split; [apply list_elem_of_here|done].
Qed.

Lemma brackets_app t1 t2 : brackets (t1 ++ t2) = brackets t1 ++ brackets t2.
Proof. apply omap_app. Qed.

Lemma brackets_prints ls : brackets (EPrint <$> ls) = [].
Proof. induction ls; auto. Qed.

Lemma invoked_segment total i file :
  invoked (seq_segment total i file) = [(i, dispatch file)].
Proof.
  unfold seq_segment. rewrite invoked_app.
  destruct (settle (dispatch file)); simpl; [|done].
  change (invoked (EPrint <$> ?l)) with (invoked (EPrint <$> l)).
  by rewrite invoked_prints.
Qed.

Lemma brackets_segment total i file :
  brackets (seq_segment total i file) = [inl i; inr i].
Proof.
  unfold seq_segment. rewrite brackets_app.
  destruct (settle (dispatch file)); simpl; [|done].
  change (omap _ (EPrint <$> ?l)) with (brackets (EPrint <$> l)).
  by rewrite brackets_prints.
Qed.

Lemma printed_segment total i file :
  printed (seq_segment total i file)
  = Progress (i + 1) total (relativePath file)
    :: match settle (dispatch file) with
       | Fulfilled result => seq_report result
       | Rejected _ => []
       end.
Proof.
  unfold seq_segment. rewrite printed_app.
  destruct (settle (dispatch file)); simpl; [|done].
  change (omap _ (EPrint <$> ?l)) with (printed (EPrint <$> l)).
  by rewrite printed_prints.
Qed.

Lemma invoked_segments total l : ∀ i,
  invoked (mjoin (imap (λ k file, seq_segment total (i + k) file) l))
  = imap (λ k file, (i + k, dispatch file)) l.
Proof.
  induction l as [|file l IH]; intros i; [done|].
  rewrite segments_cons, invoked_app, invoked_segment, IH, imap_cons, Nat.add_0_r.
  simpl. f_equal. apply imap_ext. intros k x _. simpl. f_equal. lia.
Qed.

Lemma brackets_segments total l : ∀ i,
  brackets (mjoin (imap (λ k file, seq_segment total (i + k) file) l))
  = mjoin ((λ j, [inl j; inr j]) <$> seq i (length l)).
Proof.
  induction l as [|file l IH]; intros i; [done|].
  by rewrite segments_cons, brackets_app, brackets_segment, IH.
Qed.

Lemma printed_segments total l : ∀ i,
  printed (mjoin (imap (λ k file, seq_segment total (i + k) file) l))
  = mjoin (imap (λ k file,
                   Progress (i + k + 1) total (relativePath file)
                   :: match settle (dispatch file) with
                      | Fulfilled result => seq_report result
                      | Rejected _ => []
                      end) l).
Proof.
  induction l as [|file l IH]; intros i; [done|].
  rewrite segments_cons, printed_app, printed_segment, IH, imap_cons, Nat.add_0_r.
  change (mjoin (?a :: ?l')) with (a ++ mjoin l'). do 2 f_equal.
  apply imap_ext. intros k x _. simpl. do 2 f_equal. lia.
Qed.

(** In a trace where every call but the first comes after the end of the call
    before it, one more turn of the loop keeps it so. *)
Lemma order_extend t i call tail line :
  (∀ k a c, t !! k = Some (EInvoke (S a) c) →
            ∃ j o, j < k ∧ t !! j = Some (EAwaited a o)) →
  (i = 0 ∨ ∃ j o, t !! j = Some (EAwaited (i - 1) o)) →
  (∀ m a c, tail !! m ≠ Some (EInvoke a c)) →
  ∀ k a c, ((t ++ [EPrint line; EInvoke i call]) ++ tail) !! k = Some (EInvoke (S a) c) →
           ∃ j o, j < k
                  ∧ ((t ++ [EPrint line; EInvoke i call]) ++ tail) !! j
                    = Some (EAwaited a o).
Proof.
  intros Hord Hlast Htail k a c Hk.
  assert (∀ j e, t !! j = Some e →
                 ((t ++ [EPrint line; EInvoke i call]) ++ tail) !! j = Some e) as Hkeep.
  { intros j e Hj. rewrite <- app_assoc. by apply lookup_app_l_Some. }
  apply lookup_app_Some in Hk as [Hk|[_ Hk]]; [|by apply Htail in Hk].
  apply lookup_app_Some in Hk as [Hk|[Hge Hk]].
  - destruct (Hord k a c Hk) as (j & o & Hlt & Hj). exists j, o. auto.
  - destruct (k - length t) as [|[|m]] eqn:Hm; simpl in Hk; try done.
    injection Hk as -> ->.
    destruct Hlast as [?|(j & o & Hj)]; [done|].
    exists j, o. apply lookup_lt_Some in Hj as Hlt.
    split; [lia|]. apply Hkeep. simpl in Hj. by rewrite Nat.sub_0_r in Hj.
Qed.

Lemma run_loop_order rest : ∀ total i s s' thrown,
  run_loop total i rest s = (s', thrown) →
  (∀ k a c, seq_trace s !! k = Some (EInvoke (S a) c) →
            ∃ j o, j < k ∧ seq_trace s !! j = Some (EAwaited a o)) →
  (i = 0 ∨ ∃ j o, seq_trace s !! j = Some (EAwaited (i - 1) o)) →
  ∀ k a c, seq_trace s' !! k = Some (EInvoke (S a) c) →
           ∃ j o, j < k ∧ seq_trace s' !! j = Some (EAwaited a o).
Proof.
  induction rest as [|file rest IH]; intros total i s s' thrown Hrun Hord Hlast;
    simpl in Hrun.
  - by injection Hrun as <- <-.
  - destruct (settle (dispatch file)) as [r|reason] eqn:Hs.
    + eapply IH; [exact Hrun| |]; cbn [seq_trace].
      * apply order_extend; [done..|].
        intros [|[|m]] a c; simpl; try done.
        rewrite list_lookup_fmap. by destruct (seq_report r !! m).
      * right. exists (length (seq_trace s) + 2), (Fulfilled r).
        rewrite lookup_app_r by (rewrite length_app; simpl; lia).
        rewrite length_app. simpl.
        replace (length (seq_trace s) + 2 - (length (seq_trace s) + 2)) with 0 by lia.
        simpl. by rewrite Nat.sub_0_r.
    + injection Hrun as <- <-. cbn [seq_trace].
      apply order_extend; [done..|].
      by intros [|m] a c.
Qed.

Lemma omap_id_some {A} (l : list A) : omap id (Some <$> l) = l.
Proof. induction l; simpl; by f_equal. Qed.

Lemma fulfilled_results files :
  Forall fulfils files →
  result_of <$> files = Some <$> omap result_of files.
Proof.
  induction 1 as [|file files [r Hr] _ IH]; [done|].
  simpl. rewrite Hr. simpl. by f_equal.
Qed.

(** C9: in the sequential script the trace is the concatenation, in
    discovery order, of one segment per file: progress line, runner call,
    end of its [await], push of the result, result line.  So calls and ends
    alternate (call 0, end 0, call 1, end 1, ...): wherever the call for file
    [i + 1] is in the trace, the end of the [await] for file [i] is before
    it; the lines are printed in discovery order, and so are the results
    pushed. *)
Theorem C9_sequential_order files s thrown :
  run_sequential files = (s, thrown) →
  ∃ n, n ≤ length files ∧ (thrown = None → n = length files)
    ∧ seq_trace s
      = mjoin (imap (λ i file, seq_segment (length files) i file) (take n files))
    ∧ brackets (seq_trace s) = mjoin ((λ i, [inl i; inr i]) <$> seq 0 n)
    ∧ (∀ k i call, seq_trace s !! k = Some (EInvoke (S i) call) →
         ∃ j o, j < k ∧ seq_trace s !! j = Some (EAwaited i o))
    ∧ printed (seq_trace s)
      = mjoin (imap (λ i file,
                       Progress (i + 1) (length files) (relativePath file)
                       :: match settle (dispatch file) with
                          | Fulfilled result => seq_report result
                          | Rejected _ => []
                          end) (take n files))
    ∧ (thrown = None → Some <$> seq_results s = result_of <$> files).
Proof.
  intros Hrun. unfold run_sequential in Hrun.
  destruct (run_loop_trace _ _ _ _ _ _ Hrun) as (n & Hn & Hall & Ht).
  simpl in Ht. exists n. split; [done|]. split; [done|]. split; [done|].
  split; [|split; [|split]].
  - rewrite Ht, (brackets_segments _ _ 0), length_take. do 3 f_equal. lia.
  - eapply run_loop_order; [exact Hrun| |by left]. intros k a c Hk. done.
  - by rewrite Ht, (printed_segments _ _ 0).
  - intros ->. destruct (run_loop_returns _ _ _ _ _ Hrun) as (Hful & Hres & _).
    simpl in Hres. by rewrite Hres, fulfilled_results.
Qed.

(** ** The two modes side by side *)

Local Abbreviation reachable :=
  (reachable getServerConfig runExample runServerExample projectRoot).
Local Abbreviation step :=
  (step getServerConfig runExample runServerExample projectRoot).
Local Abbreviation resume :=
  (resume getServerConfig runExample runServerExample projectRoot).
Local Abbreviation main_sequential :=
  (main_sequential getServerConfig runExample runServerExample projectRoot).
Local Abbreviation main_parallel :=
  (main_parallel getServerConfig runExample runServerExample projectRoot).

Lemma run_loop_stops rest : ∀ total i s s' reason,
  run_loop total i rest s = (s', Some reason) →
  ∃ k file,
    rest !! k = Some file
    ∧ settle (dispatch file) = Rejected reason
    ∧ Forall fulfils (take k rest)
    ∧ seq_results s' = seq_results s ++ omap result_of (take k rest)
    ∧ seq_trace s'
      = seq_trace s
        ++ mjoin (imap (λ j file, seq_segment total (i + j) file) (take (S k) rest)).
Proof.
  induction rest as [|file rest IH]; intros total i s s' reason Hrun; simpl in Hrun.
  - done.
  - destruct (settle (dispatch file)) as [r|reason'] eqn:Hs.
    + apply IH in Hrun as (k & file' & Hk & Hrej & Hful & Hres & Ht).
      exists (S k), file'. split; [done|]. split; [done|].
      change (take (S (S k)) (file :: rest)) with (file :: take (S k) rest).
      change (take (S k) (file :: rest)) with (file :: take k rest).
      split; [|split].
      * constructor; [|done]. unfold fulfils. rewrite Hs. by eexists.
      * rewrite Hres. cbn [seq_results]. simpl. rewrite Hs. simpl.
        by rewrite <- app_assoc.
      * rewrite segments_cons, (segment_fulfilled _ _ _ r Hs), Ht.
        cbn [seq_trace]. by rewrite <- !app_assoc.
    + injection Hrun as <- <-. exists 0, file. split; [done|]. split; [done|].
      split; [constructor|]. split; [by rewrite app_nil_r|].
      change (take 1 (file :: rest)) with (file :: take 0 rest).
      rewrite segments_cons, (segment_rejected _ _ _ reason' Hs), take_0.
      cbn [seq_trace]. simpl. by rewrite <- !app_assoc.
Qed.

(** C8 as amended: the runner called for a file is [runServerExample] with
    the file's configuration when [getServerConfig] gives one and [runExample]
    when it gives none, by the same conditional in both modes.  In both modes
    the calls made at any point are the calls for the first files of the
    list, one per file and in the order of the list: no file has two.  When
    every runner gives a result, the loop and every run of the pool go on to
    their end and have then made exactly one call for each file; when a
    promise is rejected, the loop stops and the files after that one have no
    call. *)
Theorem C8_one_runner_per_example files concurrency :
  1 ≤ concurrency →
  (∀ file,
     match getServerConfig file with
     | Some serverConfig => dispatch file = CallRunServerExample file serverConfig
     | None => dispatch file = CallRunExample file
     end)
  ∧ (∀ p, reachable files concurrency p →
       invoked (trace p)
       = imap (λ i file, (i, dispatch file)) (take (nextIndex p) files))
  ∧ (∀ s thrown, run_sequential files = (s, thrown) →
       ∃ n, invoked (seq_trace s) = imap (λ i file, (i, dispatch file)) (take n files)
            ∧ (thrown = None → n = length files)
            ∧ (∀ reason, thrown = Some reason →
                 ∃ file, files !! (n - 1) = Some file
                         ∧ settle (dispatch file) = Rejected reason))
  ∧ (Forall fulfils files →
       (∃ s, run_sequential files = (s, None)
             ∧ invoked (seq_trace s) = imap (λ i file, (i, dispatch file)) files)
       ∧ (∀ p, reachable files concurrency p →
            ∃ p' rs, rtc (step files concurrency) p p'
                     ∧ outcome files concurrency p' = Some (Returns rs)
                     ∧ invoked (trace p') = imap (λ i file, (i, dispatch file)) files)
       ∧ (∀ p o, reachable files concurrency p →
            outcome files concurrency p = Some o →
            invoked (trace p) = imap (λ i file, (i, dispatch file)) files)).
Proof.
  intros HK.
  assert (∀ p rs, reachable files concurrency p →
            outcome files concurrency p = Some (Returns rs) →
            invoked (trace p) = imap (λ i file, (i, dispatch file)) files) as Hall.
  { intros p rs Hp Ho.
    destruct (returns_complete _ _ p rs HK Hp Ho) as (_ & _ & Hnext & _).
    rewrite (inv_invoked _ _ _ _ _ _ (reachable_consistent _ _ p Hp)).
    by rewrite take_ge. }
  split; [|split; [|split; [|intros Hful; split; [|split]]]].
  - intros file. unfold dispatch. by destruct (getServerConfig file).
  - intros p Hp. apply (inv_invoked _ _ _ _ _ _ (reachable_consistent _ _ p Hp)).
  - intros s thrown Hrun. unfold run_sequential in Hrun.
    destruct thrown as [reason|].
    + apply run_loop_stops in Hrun as (k & file & Hk & Hrej & _ & _ & Ht).
      exists (S k). simpl in Ht. rewrite Ht, (invoked_segments _ _ 0).
      split; [done|]. split; [done|]. intros reason' [= <-].
      exists file. by replace (S k - 1) with k by lia.
    + destruct (run_loop_trace _ _ _ _ _ _ Hrun) as (n & Hn & Hlen & Ht).
      exists n. simpl in Ht. rewrite Ht, (invoked_segments _ _ 0).
      split; [done|]. split; [done|]. done.
  - destruct (run_loop_fulfilled files (length files) 0 (Tally [] 0 0 []) Hful)
      as [s Hrun].
    exists s. split; [done|].
    destruct (run_loop_trace _ _ _ _ _ _ Hrun) as (n & Hn & Hlen & Ht).
    simpl in Ht. rewrite Ht, (invoked_segments _ _ 0), (Hlen eq_refl).
    by rewrite take_ge.
  - intros p Hp. destruct (run_returns _ _ p Hful Hp) as (p' & rs & Hrun & Ho).
    exists p', rs. split; [done|]. split; [done|].
    apply (Hall p' rs); [|done]. by eapply rtc_trans.
  - intros p o Hp Ho. destruct o as [rs|reason]; [by eapply Hall|].
    unfold outcome in Ho. case_decide; [|done].
    rewrite (no_rejection _ _ p Hful Hp) in Ho. by destruct (forallb _ _).
Qed.






(** C7: when every runner gives a result, the sequential loop ends without an
    exception with a list of results, and for every limit of at least one the
    pool does return, whatever the order in which the promises settle: every
    run goes on to a return, and what any run returns is, slot by slot, the
    list the loop built; so is what the executable pool gives, and it gives
    it for some order.  The passed and failed counts of the two agree and so
    does the exit status, also for the parallel script with its own limit,
    which does end. *)
Theorem C7_modes_agree files concurrency :
  1 ≤ concurrency →
  Forall fulfils files →
  ∃ s, run_sequential files = (s, None)
    ∧ (∀ p, reachable files concurrency p →
         ∃ p', rtc (step files concurrency) p p'
               ∧ outcome files concurrency p' = Some (Returns (Some <$> seq_results s)))
    ∧ (∀ p o, reachable files concurrency p →
         outcome files concurrency p = Some o →
         o = Returns (Some <$> seq_results s))
    ∧ (∃ order,
         runTestsWithConcurrency getServerConfig runExample runServerExample
           projectRoot files concurrency order
         = Some (Returns (Some <$> seq_results s)))
    ∧ (∀ order o,
         runTestsWithConcurrency getServerConfig runExample runServerExample
           projectRoot files concurrency order = Some o →
         o = Returns (Some <$> seq_results s))
    ∧ length (js_filter success (Some <$> seq_results s)) = passed s
    ∧ failed_count (Some <$> seq_results s) = failed s
    ∧ exit_status (Returns (Some <$> seq_results s)) = main_sequential (Returns files)
    ∧ (∃ code, main_parallel (Returns files) code)
    ∧ (∀ code, main_parallel (Returns files) code →
         code = main_sequential (Returns files)).
Proof.
  intros HK Hful.
  destruct (run_loop_fulfilled files (length files) 0 (Tally [] 0 0 []) Hful)
    as [s Hrun].
  exists s. split; [done|].
  destruct (run_loop_returns _ _ _ _ _ Hrun) as (_ & Hres & Hpass & Hfail).
  simpl in Hres, Hpass, Hfail.
  assert (∀ K p o, 1 ≤ K → reachable files K p → outcome files K p = Some o →
            o = Returns (Some <$> seq_results s)) as Hagree.
  { intros K p o HK' Hp Ho. destruct o as [rs|reason].
    - pose proof (returns_results _ _ p rs HK' Hp Ho) as ->.
      by rewrite (fulfilled_results files Hful), Hres.
    - unfold outcome in Ho. case_decide; [|done].
      rewrite (no_rejection _ _ p Hful Hp) in Ho. by destruct (forallb _ _). }
  assert (∀ K p, 1 ≤ K → reachable files K p →
            ∃ p', rtc (step files K) p p'
                  ∧ outcome files K p' = Some (Returns (Some <$> seq_results s)))
    as Hreturns.
  { intros K p HK' Hp. destruct (run_returns _ _ p Hful Hp) as (p' & rs & Hrun' & Ho).
    exists p'. split; [done|].
    by rewrite Ho, (Hagree K p' _ HK' (rtc_trans _ _ _ Hp Hrun') Ho). }
  assert (exit_status (Returns (Some <$> seq_results s))
          = main_sequential (Returns files)) as Hexit.
  { unfold main_sequential, exit_status. fold (run_sequential files).
    unfold run_sequential. rewrite Hrun.
    unfold failed_count, js_filter. by rewrite omap_id_some, Hfail, Hres. }
  split; [intros p Hp; by apply Hreturns|].
  split; [intros p o; by apply Hagree|].
  split; [|split; [|split; [|split; [|split; [done|split]]]]].
  - destruct (started_reachable files concurrency) as [Hs Hlen].
    destruct (Hreturns concurrency _ HK Hs) as (p' & Hrun' & Ho).
    destruct (run_as_order _ _ p' Hrun') as [order Horder].
    exists order. unfold runTestsWithConcurrency. by rewrite Horder.
  - intros order o Ho. unfold runTestsWithConcurrency in Ho.
    destruct (started_reachable files concurrency) as [Hs Hlen].
    eapply (Hagree concurrency); [done| |exact Ho].
    by apply settle_in_order_reachable.
  - unfold js_filter. by rewrite omap_id_some, Hpass, Hres.
  - unfold failed_count, js_filter. by rewrite omap_id_some, Hfail, Hres.
  - destruct (Hreturns CONCURRENCY (init files)) as (p' & Hrun' & Ho);
      [unfold CONCURRENCY; lia|apply rtc_refl|].
    exists (exit_status (Returns (Some <$> seq_results s))).
    by eapply main_parallel_ran.
  - intros code Hmain. inversion Hmain as [reason Hd|allFiles p o Hd Hp Ho]; [done|].
    injection Hd as <-.
    by rewrite (Hagree CONCURRENCY p o ltac:(unfold CONCURRENCY; lia) Hp Ho).
Qed.


(** ** A rejected promise *)

(** C4 as amended: nothing in the worker catches.  When the promise a worker
    waits for is fulfilled, also with a failed result, the result is stored
    in the slot of the index the worker claimed, and the worker claims the
    next index.  When it is rejected, nothing is stored, printed, claimed or
    called; the worker has ended and claims nothing for the rest of the run,
    the slot of its file stays empty whatever the other workers still do,
    [Promise.all] is rejected with the reason of the first rejection of the
    run (this one, if none came before), which stays what
    [runTestsWithConcurrency] throws; the array is never returned, and the
    exit status is 1. *)
Theorem C4_rejection_ends_the_run files concurrency p w i :
  reachable files concurrency p →
  length (workers p) = concurrency `min` length files →
  workers p !! w = Some (Awaiting i) →
  ∃ p', resume files w p = Some p' ∧ step files concurrency p p'
    ∧ match settle (dispatch (files !!! i)) with
      | Fulfilled r =>
          results p' = <[i := Some r]> (results p)
          ∧ results p' !! i = Some (Some r)
          ∧ (i, (w, r)) ∈ stores (trace p')
          ∧ nextIndex p' = S (nextIndex p)
          ∧ workers p' !! w
            = Some (if decide (nextIndex p < length files)
                    then Awaiting (nextIndex p) else Finished)
          ∧ crashed p' = crashed p
      | Rejected reason =>
          results p' = results p
          ∧ nextIndex p' = nextIndex p
          ∧ invoked (trace p') = invoked (trace p)
          ∧ stores (trace p') = stores (trace p)
          ∧ printed (trace p') = printed (trace p)
          ∧ rejections (trace p') = rejections (trace p) ++ [reason]
          ∧ (crashed p = false →
             outcome files concurrency p' = Some (Throws reason))
          ∧ ∀ q, rtc (step files concurrency) p' q →
              workers q !! w = Some (Threw i reason)
              ∧ results q !! i = Some None
              ∧ (i ∉ (stores (trace q)).*1)
              ∧ (∀ j, (j, w) ∈ claims (trace q) → (j, w) ∈ claims (trace p))
              ∧ (∃ first, head (rejections (trace p')) = Some first
                          ∧ outcome files concurrency q = Some (Throws first)
                          ∧ exit_status (Throws first) = 1)
      end.
Proof.
  intros Hp Hfull Hw.
  pose proof (reachable_consistent _ _ p Hp) as Hc.
  destruct (awaiting_fresh _ _ p w i Hc Hw) as (Hinext & HiN & Hifresh).
  destruct (resumable files w p i Hw) as [p' Hr].
  assert (step files concurrency p p') as Hstep by (by eapply step_resume).
  assert (reachable files concurrency p') as Hp' by (by eapply rtc_r).
  pose proof (resume_workers _ _ _ _ Hr) as Hlen.
  pose proof (lookup_lt_Some _ _ _ Hw) as Hwlt.
  exists p'. split; [done|]. split; [done|].
  apply resume_cases in Hr as Hcases. destruct Hcases as (i' & Hw' & Hcases).
  rewrite Hw in Hw'. injection Hw' as <-.
  assert (i < length (results p)) as Hilen
      by (rewrite (inv_results _ _ _ _ _ _ Hc); lia).
  destruct Hcases as [(reason & Hs & Heq)|[(r & Hs & Hnext & Heq)|(r & Hs & Hnext & Heq)]];
    rewrite Hs.
  - (* rejected *)
    assert (rejections (trace p') = rejections (trace p) ++ [reason]) as Hrej
        by (by rewrite Heq; fields; rewrite rejections_app).
    assert (∃ first, head (rejections (trace p')) = Some first) as [first Hfirst].
    { rewrite Hrej. destruct (rejections (trace p)); by eexists. }
    assert (outcome files concurrency p' = Some (Throws first)) as Ho.
    { unfold outcome. rewrite decide_True by lia. by rewrite Hfirst. }
    assert (workers p' !! w = Some (Threw i reason)) as Hthrew
        by (rewrite Heq; fields; by apply list_lookup_insert_eq).
    split; [by rewrite Heq|]. split; [by rewrite Heq|].
    split; [by rewrite Heq; fields; rewrite invoked_app, app_nil_r|].
    split; [by rewrite Heq; fields; rewrite stores_app, app_nil_r|].
    split; [by rewrite Heq; fields; rewrite printed_app, app_nil_r|].
    split; [done|]. split.
    { intros Hcr. assert (thrown (workers p) = None) as Hth.
      { unfold crashed in Hcr. by destruct (thrown (workers p)). }
      apply (crashed_rejections _ _ p Hp) in Hth.
      rewrite Ho. rewrite Hrej, Hth in Hfirst. by injection Hfirst as ->. }
    intros q Hq.
    assert (reachable files concurrency q) as Hrq by (by eapply rtc_trans).
    destruct (threw_for_good _ _ p' q w i reason Hq ltac:(lia) Hthrew)
      as (_ & Hwq & Hcl).
    destruct (threw_rejected _ _ q w i reason Hrq Hwq) as (_ & _ & Hfresh & Hslot).
    split; [done|]. split; [done|]. split; [done|]. split.
    { intros j Hj. specialize (Hcl j Hj). rewrite Heq in Hcl. fields.
      cbn [trace] in Hcl. by rewrite claims_app, app_nil_r in Hcl. }
    exists first. split; [done|]. split; [|done].
    exact (thrown_for_good _ _ p' q first Hq Ho).
  - (* fulfilled, a file is left *)
    rewrite decide_True by done. rewrite Heq. fields.
    split; [done|]. split; [by apply list_lookup_insert_eq|].
    split; [rewrite stores_resumed; apply elem_of_app; right; apply list_elem_of_here|].
    split; [done|]. split; [by apply list_lookup_insert_eq|].
    unfold crashed. fields. by rewrite (thrown_insert_same _ _ i).
  - (* fulfilled, no file is left *)
    rewrite decide_False by lia. rewrite Heq. fields.
    split; [done|]. split; [by apply list_lookup_insert_eq|].
    split; [rewrite stores_resumed; apply elem_of_app; right; apply list_elem_of_here|].
    split; [done|]. split; [by apply list_lookup_insert_eq|].
    unfold crashed. fields. by rewrite (thrown_insert_same _ _ i).
Qed.

(** ** Further properties of the two scripts *)

Lemma filter_success_split (l : list TestResult) :
  length (filter (λ r, success r = true) l)
  + length (filter (λ r, success r = false) l) = length l.
Proof.
  induction l as [|r l IH]; [done|]. rewrite !filter_cons.
  destruct (success r); repeat case_decide; simpl; (done || lia).
Qed.

Lemma run_loop_tally rest : ∀ total i s s' thrown,
  run_loop total i rest s = (s', thrown) →
  passed s = length (filter (λ r, success r = true) (seq_results s)) →
  failed s = length (filter (λ r, success r = false) (seq_results s)) →
  passed s' = length (filter (λ r, success r = true) (seq_results s'))
  ∧ failed s' = length (filter (λ r, success r = false) (seq_results s'))
  ∧ length (seq_results s') ≤ length (seq_results s) + length rest
  ∧ (thrown = None → length (seq_results s') = length (seq_results s) + length rest).
Proof.
  induction rest as [|file rest IH]; intros total i s s' thrown Hrun Hp Hf;
    simpl in Hrun.
  - injection Hrun as <- <-. simpl. repeat split; (done || lia).
  - destruct (settle (dispatch file)) as [r|reason] eqn:Hs.
    + apply IH in Hrun as (Hp' & Hf' & Hle & Hall); cbn [seq_results passed failed].
      * cbn [seq_results] in Hle, Hall. rewrite length_app in Hle, Hall. simpl in *.
        repeat split; try done; try lia. intros Hnone. specialize (Hall Hnone). lia.
      * rewrite filter_app, length_app, filter_cons, Hp.
        destruct (success r); case_decide; simpl; (done || lia).
      * rewrite filter_app, length_app, filter_cons, Hf.
        destruct (success r); case_decide; simpl; (done || lia).
    + injection Hrun as <- <-. simpl. repeat split; (done || lia).
Qed.

(** The counters of the sequential script count the results: at the end of
    the loop, also when an exception ended it, [passed] is the number of
    successes pushed and [failed] the number of failures, they add up to the
    number of results, which is the number of files when no exception
    occurred and no more than that otherwise. *)
Theorem sequential_tally files s thrown :
  run_sequential files = (s, thrown) →
  passed s = length (filter (λ r, success r = true) (seq_results s))
  ∧ failed s = length (filter (λ r, success r = false) (seq_results s))
  ∧ passed s + failed s = length (seq_results s)
  ∧ length (seq_results s) ≤ length files
  ∧ (thrown = None → length (seq_results s) = length files).
Proof.
  intros Hrun. unfold run_sequential in Hrun.
  destruct (run_loop_tally _ _ _ _ _ _ Hrun eq_refl eq_refl) as (Hp & Hf & Hle & Hall).
  simpl in Hle, Hall. split; [done|]. split; [done|].
  split; [rewrite Hp, Hf; apply filter_success_split|]. done.
Qed.

(** The sequential script stops at the first file whose runner's promise is
    rejected: the files before it have their results pushed, in order; the
    runner was called for these files and for that one and for no file after
    it; the reason thrown is the reason of that rejection, and the exit
    status is 1. *)
Theorem sequential_stops_at_first_rejection files s reason :
  run_sequential files = (s, Some reason) →
  ∃ k file,
    files !! k = Some file
    ∧ settle (dispatch file) = Rejected reason
    ∧ Forall fulfils (take k files)
    ∧ Some <$> seq_results s = result_of <$> take k files
    ∧ invoked (seq_trace s) = imap (λ i file, (i, dispatch file)) (take (S k) files)
    ∧ main_sequential (Returns files) = 1.
Proof.
  intros Hrun. pose proof Hrun as Hrun'. unfold run_sequential in Hrun.
  apply run_loop_stops in Hrun as (k & file & Hk & Hrej & Hful & Hres & Ht).
  exists k, file. split; [done|]. split; [done|]. split; [done|].
  simpl in Hres, Ht. split; [by rewrite Hres, fulfilled_results|].
  split; [by rewrite Ht, (invoked_segments _ _ 0)|].
  unfold main_sequential. fold (run_sequential files). by rewrite Hrun'.
Qed.

Lemma passes_fulfils file : passes getServerConfig runExample runServerExample file → fulfils file.
Proof. intros (r & Hs & _). unfold fulfils. rewrite Hs. by eexists. Qed.

Lemma failures_none files :
  Forall fulfils files →
  length (filter (λ r, negb (success r) = true) (omap result_of files)) = 0
  ↔ Forall (passes getServerConfig runExample runServerExample) files.
Proof.
  induction 1 as [|file files [r Hr] _ IH]; [by split|].
  simpl. rewrite Hr. simpl. rewrite filter_cons. split.
  - intros Hz. case_decide as Hneg; [done|]. constructor; [|by apply IH].
    exists r. split; [by destruct (settle _); simplify_eq/=|].
    by destruct (success r).
  - intros [(r' & Hs & Hsucc) Hrest]%Forall_cons.
    assert (r' = r) as -> by (rewrite Hs in Hr; by simplify_eq/=).
    rewrite decide_False by (by rewrite Hsucc). by apply IH.
Qed.

(** The two scripts always end with the same exit status, whatever the
    runners do: it is 0 exactly when the runner of every file gives a result
    that is a success, and 1 otherwise, also when a promise is rejected; and
    the parallel script does end with a status. *)
Theorem exit_statuses_agree files :
  (main_sequential (Returns files) = 0
   ↔ Forall (passes getServerConfig runExample runServerExample) files)
  ∧ (main_sequential (Returns files) = 0 ∨ main_sequential (Returns files) = 1)
  ∧ (∃ code, main_parallel (Returns files) code)
  ∧ (∀ code, main_parallel (Returns files) code →
       code = main_sequential (Returns files)).
Proof.
  assert (1 ≤ CONCURRENCY) as HK by (unfold CONCURRENCY; lia).
  assert (∃ code, main_parallel (Returns files) code) as Hends.
  { destruct (run_completes_within files CONCURRENCY
                (CONCURRENCY `min` length files + length files) 0 (init files))
      as (p & o & Hp & Ho); [constructor|lia|].
    exists (exit_status o). by eapply main_parallel_ran. }
  unfold main_sequential. fold (run_sequential files).
  destruct (run_sequential files) as [s [reason|]] eqn:Hrun.
  - (* a promise is rejected *)
    unfold run_sequential in Hrun.
    destruct (run_loop_throws _ _ _ _ _ _ Hrun) as (file & Hin & Hrej).
    split; [|split; [by right|split; [done|]]].
    + split; [done|]. intros Hall. rewrite Forall_forall in Hall.
      destruct (Hall file Hin) as (r & Hs & _). congruence.
    + intros code Hmain. inversion Hmain as [|allFiles p o Hd Hp Ho]; [done|].
      injection Hd as <-. destruct o as [rs|reason']; [|done].
      apply list_elem_of_lookup in Hin as [i Hi].
      destruct (returns_complete _ _ p rs HK Hp Ho) as (_ & _ & _ & Hslots).
      destruct (Hslots i file Hi) as (r & Hs & _). congruence.
  - (* every promise is fulfilled *)
    unfold run_sequential in Hrun.
    destruct (run_loop_returns _ _ _ _ _ Hrun) as (Hful & Hres & _ & Hfail).
    simpl in Hres, Hfail.
    split; [|split; [case_decide; auto|split; [done|]]].
    + rewrite <- (failures_none files Hful), <- Hfail.
      case_decide; split; (done || lia).
    + intros code Hmain. inversion Hmain as [|allFiles p o Hd Hp Ho]; [done|].
      injection Hd as <-. destruct o as [rs|reason'].
      * pose proof (returns_results _ _ p rs HK Hp Ho) as ->.
        rewrite (fulfilled_results files Hful). simpl.
        unfold failed_count, js_filter. by rewrite omap_id_some, Hfail.
      * unfold outcome in Ho. case_decide; [|done].
        by rewrite (no_rejection _ _ p Hful Hp) in Ho; destruct (forallb _ _).
Qed.

End Sequential.

End Facts.

(** ** The runners *)

(** C6: a child that outlives the bound is killed, and [runExample] returns a
    failed result that carries the timeout message and has the bound as its
    duration; whatever the child does, one child is spawned and it has exited
    or was killed when [runExample] returns or throws. *)
Theorem C6_timeout_reclaims_child timeoutMs c :
  (ProcessRunner.exceeds timeoutMs c →
   ∃ r msg,
     (ProcessRunner.runExample timeoutMs c).1 = Returns r
     ∧ success r = false
     ∧ duration r = timeoutMs
     ∧ error r = Some msg ∧ contains "timeout" msg = true
     ∧ last (ProcessRunner.runExample timeoutMs c).2 = Some ProcessRunner.Killed)
  ∧ ProcessRunner.spawns (ProcessRunner.runExample timeoutMs c).2 = 1
  ∧ head (ProcessRunner.runExample timeoutMs c).2 = Some ProcessRunner.Spawned
  ∧ ProcessRunner.reaped (ProcessRunner.runExample timeoutMs c).2.
Proof.
  split.
  - intros Hex. exists (mkTestResult false timeoutMs (Some ProcessRunner.TIMEOUT_MESSAGE)).
    exists ProcessRunner.TIMEOUT_MESSAGE.
    destruct c as [elapsed status uncaught output| |reason]; simpl in *; [|done..].
    by rewrite decide_True.
  - destruct c as [elapsed status uncaught output| |reason]; simpl; [|done..].
    case_decide; done.
Qed.

(** C5: whatever the server and the client do (the client succeeds, fails,
    times out, or the harness fails while it runs), the events before
    [runServerExample] returns or throws start with the spawn of the server,
    end with its termination and contain one termination; when the server
    exits or errors before it is ready, the result is a failure that carries
    the message "server failed to start" and no client was spawned. *)
Theorem C5_server_torn_down serverConfig timeoutMs s c :
  ServerLifecycle.terminations
    (ServerLifecycle.runServerExample serverConfig timeoutMs s c).2 = 1
  ∧ last (ServerLifecycle.runServerExample serverConfig timeoutMs s c).2
    = Some ServerLifecycle.ServerTerminated
  ∧ head (ServerLifecycle.runServerExample serverConfig timeoutMs s c).2
    = Some (ServerLifecycle.ServerSpawned (command serverConfig) (args serverConfig))
  ∧ (ServerLifecycle.startup_failed s →
     ∃ r msg,
       (ServerLifecycle.runServerExample serverConfig timeoutMs s c).1 = Returns r
       ∧ success r = false
       ∧ error r = Some msg ∧ contains "server failed to start" msg = true
       ∧ ServerLifecycle.client_spawns
           (ServerLifecycle.runServerExample serverConfig timeoutMs s c).2 = 0).
Proof.
  destruct s as [|status|reason]; simpl.
  - destruct c as [elapsed status uncaught output| |reason]; simpl;
      [case_decide|..]; done.
  - repeat split; try done. intros _.
    by exists (mkTestResult false 0 (Some ServerLifecycle.STARTUP_MESSAGE)),
              ServerLifecycle.STARTUP_MESSAGE.
  - repeat split; try done. intros _.
    by exists (mkTestResult false 0 (Some ServerLifecycle.STARTUP_MESSAGE)),
              ServerLifecycle.STARTUP_MESSAGE.
Qed.

(** * The scenarios, run *)

Section Runs.

Import Scenario.

Local Abbreviation reachable :=
  (reachable getServerConfig runExample runServerExample root).
Local Abbreviation step :=
  (step getServerConfig runExample runServerExample root).
Local Abbreviation resume :=
  (resume getServerConfig runExample runServerExample root).
Local Abbreviation started := (started getServerConfig root).
Local Abbreviation settle_in_order :=
  (settle_in_order getServerConfig runExample runServerExample root).
Local Abbreviation run_sequential :=
  (run_sequential getServerConfig runExample runServerExample root).
Local Abbreviation main_sequential :=
  (main_sequential getServerConfig runExample runServerExample root).
Local Abbreviation main_parallel :=
  (main_parallel getServerConfig runExample runServerExample root).
Local Abbreviation fulfils := (fulfils getServerConfig runExample runServerExample).

(** The pool of the three files with two workers, after B and then C have
    completed and while A is still running. *)
Lemma three_midway :
  reachable three 2 (settle_in_order three [1; 1] (started three 2)).
Proof.
  destruct (started_reachable getServerConfig runExample runServerExample root three 2).
  by apply settle_in_order_reachable.
Qed.

Lemma three_fulfil : Forall fulfils three.
Proof. repeat constructor; by eexists. Qed.

Lemma paired_fulfil : Forall fulfils paired.
Proof. repeat constructor; by eexists. Qed.

(** The pool of X, C and A with two workers, after the promise for X was
    rejected and then the one for C fulfilled: the worker of C went on. *)
Lemma overrun_midway :
  reachable overrun 2 (settle_in_order overrun [0; 1] (started overrun 2)).
Proof.
  destruct (started_reachable getServerConfig runExample runServerExample root
              overrun 2).
  by apply settle_in_order_reachable.
Qed.

(** The run of section 8 of the specification: A and B start, B completes
    and its worker takes C, C completes, A completes. *)
Example three_run :
  runTestsWithConcurrency getServerConfig runExample runServerExample root
    three 2 [1; 1; 0]
  = Some (Returns [Some resultA; Some resultB; Some resultC]).
Proof. reflexivity. Qed.

Example three_exit :
  exit_status (Returns [Some resultA; Some resultB; Some resultC]) = 1.
Proof. reflexivity. Qed.

Example three_other_order :
  runTestsWithConcurrency getServerConfig runExample runServerExample root
    three 2 [0; 0; 1]
  = Some (Returns [Some resultA; Some resultB; Some resultC]).
Proof. reflexivity. Qed.

Example three_sequential :
  seq_results (run_sequential three).1 = [resultA; resultB; resultC]
  ∧ passed (run_sequential three).1 = 2
  ∧ failed (run_sequential three).1 = 1
  ∧ main_sequential (Returns three) = 1.
Proof. repeat split. Qed.

Example broken_run :
  runTestsWithConcurrency getServerConfig runExample runServerExample root
    broken 1 [0]
  = Some (Throws "spawn EACCES").
Proof. reflexivity. Qed.

(** After the rejection of X's promise the pool has thrown; the worker of C
    still stores its result, prints its line, claims the third index and
    calls the runner of A. *)
Example overrun_run :
  let p := settle_in_order overrun [0; 1] (started overrun 2) in
  outcome overrun 2 (settle_in_order overrun [0] (started overrun 2))
  = Some (Throws "spawn EACCES")
  ∧ outcome overrun 2 p = Some (Throws "spawn EACCES")
  ∧ results p = [None; Some resultC; None]
  ∧ workers p = [Threw 0 "spawn EACCES"; Awaiting 2]
  ∧ nextIndex p = 3
  ∧ invoked (trace p)
    = [(0, CallRunExample fileX); (1, CallRunExample fileC); (2, CallRunExample fileA)]
  ∧ verdict_lines (printed (trace p)) = [PassedLine 2 3 "05-agents/code/C.ts" 10].
Proof. repeat split. Qed.

Example relative_path :
  relativePath root fileA = "05-agents/code/A.ts".
Proof. reflexivity. Qed.

Lemma C1_witness :
  1 ≤ 2 ∧ Forall fulfils three
  ∧ ∀ p rs, reachable three 2 p → outcome three 2 p = Some (Returns rs) →
      rs = [Some resultA; Some resultB; Some resultC].
Proof.
  split; [lia|]. split; [apply three_fulfil|]. intros p rs Hp Ho.
  destruct (C1_slot_alignment getServerConfig runExample runServerExample root
              three 2 ltac:(lia) three_fulfil) as (_ & _ & Hret & _).
  destruct (Hret p rs Hp Ho) as (Hlen & Hslots & _).
  destruct (Hslots 0 fileA eq_refl) as (ra & Ha & Hra).
  destruct (Hslots 1 fileB eq_refl) as (rb & Hb & Hrb).
  destruct (Hslots 2 fileC eq_refl) as (rc & Hc & Hrc).
  vm_compute in Ha, Hb, Hc. injection Ha as <-. injection Hb as <-. injection Hc as <-.
  destruct rs as [|a [|b [|c [|d rs]]]]; try discriminate.
  simpl in Hra, Hrb, Hrc.
  injection Hra as ->. injection Hrb as ->. injection Hrc as ->. reflexivity.
Defined.


Lemma C3_witness :
  reachable overrun 2 (settle_in_order overrun [0; 1] (started overrun 2))
  ∧ flight_within 2 (trace (settle_in_order overrun [0; 1] (started overrun 2)))
  ∧ inflight (workers (started overrun 2)) = [0; 1].
Proof.
  split; [apply overrun_midway|].
  destruct (C3_at_most_K_in_flight getServerConfig runExample runServerExample root
              overrun 2 _ overrun_midway) as (Hpre & _ & _ & Hflight & _).
  split; [by apply Hpre|]. by rewrite Hflight.
Defined.

Lemma C10_witness :
  reachable overrun 2 (settle_in_order overrun [0; 1] (started overrun 2))
  ∧ (claims (trace (settle_in_order overrun [0; 1] (started overrun 2)))).*1
    = [0; 1; 2].
Proof.
  split; [apply overrun_midway|].
  by rewrite (proj1 (proj2 (C10_claims_in_discovery_order getServerConfig runExample
                              runServerExample root overrun 2 _ overrun_midway))).
Defined.

Lemma C8_witness :
  1 ≤ 2 ∧ Forall fulfils paired
  ∧ ∃ p' rs, reachable paired 2 p'
             ∧ outcome paired 2 p' = Some (Returns rs)
             ∧ invoked (trace p')
               = [(0, CallRunExample fileA); (1, CallRunServerExample fileS serverS);
                  (2, CallRunExample fileB)].
Proof.
  split; [lia|]. split; [apply paired_fulfil|].
  destruct (C8_one_runner_per_example getServerConfig runExample runServerExample
              root paired 2 ltac:(lia)) as (_ & _ & _ & Hall).
  destruct (Hall paired_fulfil) as (_ & Hpar & _).
  destruct (Hpar (init paired) (rtc_refl _ _)) as (p' & rs & Hrun & Ho & Hinv).
  exists p', rs. split; [exact Hrun|]. split; [exact Ho|]. by rewrite Hinv.
Defined.

(** C8 fails on the code: C is discovered, after X whose promise is rejected.
    The sequential script calls the runner of X and stops; so does the pool
    with one worker, in every run: no runner is ever called for C. *)
Lemma C8_counterexample :
  fileC ∈ broken
  ∧ run_sequential broken = ((run_sequential broken).1, Some "spawn EACCES")
  ∧ invoked (seq_trace (run_sequential broken).1) = [(0, CallRunExample fileX)]
  ∧ main_sequential (Returns broken) = 1
  ∧ (∀ p call, reachable broken 1 p → (1, call) ∉ invoked (trace p))
  ∧ (∀ p, reachable broken 1 p → ∃ q o, rtc (step broken 1) p q
                                        ∧ outcome broken 1 q = Some o
                                        ∧ exit_status o = 1).
Proof.
  assert (∀ p, reachable broken 1 p →
            p = init broken ∨ p = started broken 1
            ∨ p = settle_in_order broken [0] (started broken 1)) as Hstates.
  { apply (run_ind getServerConfig runExample runServerExample root broken 1
             (λ p, p = init broken ∨ p = started broken 1
                   ∨ p = settle_in_order broken [0] (started broken 1))).
    - by left.
    - intros p _ [-> | [-> | ->]] Hlt; [by right; left|vm_compute in Hlt; lia..].
    - intros p w p' _ [-> | [-> | ->]] Hfull Hr; [done| |].
      + right. right. destruct w as [|w]; [|done].
        vm_compute in Hr. injection Hr as <-. reflexivity.
      + by destruct w as [|w]. }
  split; [apply list_elem_of_lookup; by exists 1|]. split; [reflexivity|].
  split; [reflexivity|]. split; [reflexivity|]. split.
  - intros p call Hp Hin.
    destruct (Hstates p Hp) as [-> | [-> | ->]]; vm_compute in Hin;
      repeat (apply elem_of_cons in Hin as [Heq|Hin]; [by injection Heq|]);
      by apply elem_of_nil in Hin.
  - intros p Hp. exists (settle_in_order broken [0] (started broken 1)).
    exists (Throws "spawn EACCES"). split; [|by split].
    assert (step broken 1 (init broken) (started broken 1)) as Hspawn.
    { apply (step_spawn getServerConfig runExample runServerExample root broken 1
               (init broken)). vm_compute. lia. }
    assert (step broken 1 (started broken 1)
              (settle_in_order broken [0] (started broken 1))) as Hresume.
    { by apply (step_resume getServerConfig runExample runServerExample root broken 1 0). }
    destruct (Hstates p Hp) as [-> | [-> | ->]].
    + eapply rtc_l; [exact Hspawn|]. by apply rtc_once.
    + by apply rtc_once.
    + apply rtc_refl.
Qed.

Lemma C7_witness :
  1 ≤ 2 ∧ Forall fulfils three
  ∧ seq_results (run_sequential three).1 = [resultA; resultB; resultC]
  ∧ ∃ p', reachable three 2 p'
          ∧ outcome three 2 p'
            = Some (Returns [Some resultA; Some resultB; Some resultC]).
Proof.
  split; [lia|]. split; [apply three_fulfil|]. split; [reflexivity|].
  destruct (C7_modes_agree getServerConfig runExample runServerExample root
              three 2 ltac:(lia) three_fulfil) as (s & Hrun & Hret & _).
  vm_compute in Hrun. injection Hrun as <-.
  destruct (Hret (init three) (rtc_refl _ _)) as (p' & Hp' & Ho).
  exists p'. split; [exact Hp'|exact Ho].
Defined.

Lemma C9_witness :
  run_sequential paired = ((run_sequential paired).1, None)
  ∧ brackets (seq_trace (run_sequential paired).1)
    = [inl 0; inr 0; inl 1; inr 1; inl 2; inr 2].
Proof.
  split; [reflexivity|].
  destruct (C9_sequential_order getServerConfig runExample runServerExample root
              paired (run_sequential paired).1 None eq_refl)
    as (n & _ & Hall & _ & Hbr & _).
  rewrite Hbr, (Hall eq_refl). reflexivity.
Defined.

(** The pool of the two files X and C with one worker, once started. *)
Lemma broken_started :
  reachable broken 1 (started broken 1)
  ∧ length (workers (started broken 1)) = 1 `min` length broken.
Proof.
  apply (started_reachable getServerConfig runExample runServerExample root broken 1).
Qed.

Lemma overrun_started :
  reachable overrun 2 (started overrun 2)
  ∧ length (workers (started overrun 2)) = 2 `min` length overrun.
Proof.
  apply (started_reachable getServerConfig runExample runServerExample root overrun 2).
Qed.

Lemma C4_witness :
  reachable overrun 2 (started overrun 2)
  ∧ length (workers (started overrun 2)) = 2 `min` length overrun
  ∧ workers (started overrun 2) !! 0 = Some (Awaiting 0)
  ∧ ∃ p', resume overrun 0 (started overrun 2) = Some p'
          ∧ outcome overrun 2 p' = Some (Throws "spawn EACCES")
          ∧ ∀ q, rtc (step overrun 2) p' q →
                 results q !! 0 = Some None
                 ∧ outcome overrun 2 q = Some (Throws "spawn EACCES").
Proof.
  split; [apply overrun_started|]. split; [reflexivity|]. split; [reflexivity|].
  destruct (C4_rejection_ends_the_run getServerConfig runExample runServerExample
              root overrun 2 (started overrun 2) 0 0
              (proj1 overrun_started) eq_refl eq_refl)
    as (p' & Hr & _ & Hrej).
  exists p'. split; [exact Hr|].
  change (settle runExample runServerExample (dispatch getServerConfig (overrun !!! 0)))
    with (Rejected "spawn EACCES") in Hrej.
  destruct Hrej as (_ & _ & _ & _ & _ & _ & Hfirst & Hrest).
  split; [exact (Hfirst eq_refl)|]. intros q Hq.
  destruct (Hrest q Hq) as (_ & Hslot & _ & _ & first & Hhead & Ho & _).
  split; [exact Hslot|].
  vm_compute in Hr. injection Hr as <-. vm_compute in Hhead.
  injection Hhead as <-. exact Ho.
Defined.

(** C4 fails on the code: X is the first of two files and its promise is
    rejected.  With one worker, the run ends in the state below:
    [runTestsWithConcurrency] throws, no slot holds a result (none for X
    either), C was never started, and no run of the pool returns. *)
Lemma C4_counterexample :
  let p := settle_in_order broken [0] (started broken 1) in
  reachable broken 1 p
  ∧ outcome broken 1 p = Some (Throws "spawn EACCES")
  ∧ results p = [None; None]
  ∧ invoked (trace p) = [(0, CallRunExample fileX)]
  ∧ stores (trace p) = []
  ∧ (∀ q, ¬ step broken 1 p q)
  ∧ (∀ q rs, reachable broken 1 q → outcome broken 1 q ≠ Some (Returns rs))
  ∧ (∀ code, main_parallel (Returns broken) code → code = 1).
Proof.
  assert (∀ K q rs, 1 ≤ K → reachable broken K q →
                    outcome broken K q ≠ Some (Returns rs)) as Hnever.
  { intros K q rs HK Hq Ho.
    destruct (returns_complete getServerConfig runExample runServerExample root
                broken K q rs HK Hq Ho) as (_ & _ & _ & Hslots).
    by destruct (Hslots 0 fileX eq_refl) as (r & Hs & _). }
  split; [|split; [|split; [|split; [|split; [|split; [|split]]]]]]; try reflexivity.
  - destruct broken_started. by apply settle_in_order_reachable.
  - intros q Hstep. inversion Hstep as [p0 Hlt|w p0 p0' _ Hr]; subst.
    + vm_compute in Hlt. lia.
    + by destruct w as [|w].
  - intros q rs. by apply Hnever.
  - intros code Hmain. inversion Hmain as [|allFiles q o Hd Hq Ho]; [done|].
    injection Hd as <-. destruct o as [rs|reason]; [|done].
    by destruct (Hnever CONCURRENCY q rs ltac:(unfold CONCURRENCY; lia) Hq).
Qed.

End Runs.

Lemma C6_witness :
  ProcessRunner.exceeds 30 ProcessRunner.Hangs
  ∧ ∃ r msg,
      (ProcessRunner.runExample 30 ProcessRunner.Hangs).1 = Returns r
      ∧ success r = false ∧ duration r = 30
      ∧ error r = Some msg ∧ contains "timeout" msg = true
      ∧ last (ProcessRunner.runExample 30 ProcessRunner.Hangs).2
        = Some ProcessRunner.Killed.
Proof.
  split; [exact I|].
  exact (proj1 (C6_timeout_reclaims_child 30 ProcessRunner.Hangs) I).
Defined.

Lemma C5_witness :
  ServerLifecycle.startup_failed (ServerLifecycle.ExitsBeforeReady 1)
  ∧ ∃ r msg,
      (ServerLifecycle.runServerExample Scenario.serverS 30
         (ServerLifecycle.ExitsBeforeReady 1) ProcessRunner.Hangs).1 = Returns r
      ∧ success r = false
      ∧ error r = Some msg ∧ contains "server failed to start" msg = true
      ∧ ServerLifecycle.client_spawns
          (ServerLifecycle.runServerExample Scenario.serverS 30
             (ServerLifecycle.ExitsBeforeReady 1) ProcessRunner.Hangs).2 = 0.
Proof.
  split; [exact I|].
  exact (proj2 (proj2 (proj2 (C5_server_torn_down Scenario.serverS 30
           (ServerLifecycle.ExitsBeforeReady 1) ProcessRunner.Hangs))) I).
Defined.

(** * The paths and lines of the reports *)

Lemma prefix_self_app pat rest : String.prefix pat (pat ++ rest) = true.
Proof.
  induction pat as [|c pat IH]; [by destruct rest|]. simpl.
  by destruct (ascii_dec c c).
Qed.

Lemma drop_chars_app pat rest : drop_chars (String.length pat) (pat ++ rest) = rest.
Proof. induction pat as [|c pat IH]; [by destruct rest|]. simpl. exact IH. Qed.

Lemma drop_chars_length n s : String.length (drop_chars n s) ≤ String.length s.
Proof.
  revert s. induction n as [|n IH]; intros [|c s]; simpl; try lia.
  specialize (IH s). lia.
Qed.

Lemma replace_first_unfold pat rep s :
  replace_first pat rep s
  = if String.prefix pat s then (rep ++ drop_chars (String.length pat) s)%string
    else match s with
         | EmptyString => EmptyString
         | String c s' => String c (replace_first pat rep s')
         end.
Proof. by destruct s. Qed.

Lemma prefix_cons a s1 b s2 :
  String.prefix (String a s1) (String b s2)
  = if ascii_dec a b then String.prefix s1 s2 else false.
Proof. done. Qed.

Lemma contains_unfold needle s :
  contains needle s
  = String.prefix needle s
    || match s with
       | EmptyString => false
       | String _ s' => contains needle s'
       end.
Proof. by destruct s. Qed.

Lemma replace_first_absent pat rep s :
  contains pat s = false → replace_first pat rep s = s.
Proof.
  induction s as [|c s IH]; intros Habs; rewrite replace_first_unfold;
    rewrite contains_unfold in Habs; apply orb_false_elim in Habs as [-> Hrest];
    [done|].
  by rewrite IH.
Qed.

Lemma replace_first_shrinks pat s :
  String.length (replace_first pat "" s) ≤ String.length s.
Proof.
  induction s as [|c s IH]; rewrite replace_first_unfold;
    destruct (String.prefix pat _); simpl; try lia.
  - apply drop_chars_length.
  - apply (drop_chars_length (String.length pat) (String c s)).
Qed.

(** The path shown for a file: a file under the project root is shown
    without the root and its slash; a file in which the root followed by a
    slash does not occur is shown as it is; and the path shown is never
    longer than the file's. *)
Theorem relative_path_shown projectRoot file :
  (∀ rest, file = ((projectRoot ++ "/") ++ rest)%string →
           relativePath projectRoot file = rest)
  ∧ (contains (projectRoot ++ "/") file = false →
     relativePath projectRoot file = file)
  ∧ String.length (relativePath projectRoot file) ≤ String.length file.
Proof.
  unfold relativePath. split; [|split].
  - intros rest ->. rewrite replace_first_unfold, prefix_self_app.
    by rewrite drop_chars_app.
  - apply replace_first_absent.
  - apply replace_first_shrinks.
Qed.

(** The line shown for an error: it has no line break in it, the error text
    starts with it, and it is the whole text when the text has no line
    break. *)
Theorem first_line_shown s :
  contains (String "010"%char "") (first_line s) = false
  ∧ String.prefix (first_line s) s = true
  ∧ (contains (String "010"%char "") s = false → first_line s = s).
Proof.
  induction s as [|c s (IH1 & IH2 & IH3)]; [done|].
  change (first_line (String c s))
    with (if Ascii.eqb c "010" then EmptyString else String c (first_line s)).
  rewrite (contains_unfold _ (String c s)).
  destruct (Ascii.eqb_spec c "010"%char) as [->|Hne].
  - split; [done|]. split; [done|]. rewrite prefix_cons.
    destruct (ascii_dec "010" "010"); [|done]. intros Hs. by destruct s.
  - rewrite (contains_unfold _ (String c (first_line s))), !prefix_cons.
    destruct (ascii_dec "010" c) as [<-|_]; [done|].
    destruct (ascii_dec c c); [|done].
    split; [by destruct (first_line s)|]. split; [done|].
    intros Hs. rewrite IH3; [done|]. by destruct s.
Qed.

(** * The tools of the agents *)

Section ToolFacts.

Import Tools.

Lemma allowed_not_name u : allowed u = true → ¬ name_unit u.
Proof.
  unfold allowed, whitespace, name_unit. intros Hal Hname.
  repeat (apply orb_prop in Hal as [Hal|Hal]);
    repeat match goal with
    | H : (_ && _)%bool = true |- _ => apply andb_prop in H as [? ?]
    | H : (_ <=? _)%N = true |- _ => apply N.leb_le in H
    | H : bool_decide _ = true |- _ => apply bool_decide_eq_true in H
    | H : _ ∈ _ :: _ |- _ => apply elem_of_cons in H as [->|H]
    | H : _ ∈ [] |- _ => by apply elem_of_nil in H
    end; lia.
Qed.

Lemma sanitize_fixed e : Forall (λ u, allowed u = true) e → sanitize e = e.
Proof.
  unfold sanitize. induction 1 as [|u e Hu _ IH]; [done|].
  by rewrite filter_cons, decide_True, IH.
Qed.

Lemma sanitize_allowed e : Forall (λ u, allowed u = true) (sanitize e).
Proof.
  apply Forall_forall. intros u Hu. by apply list_elem_of_filter in Hu as [? _].
Qed.

(** The calculator's filter leaves an arithmetic text: every code unit left
    is a digit, one of [+ - * / ( ) .] or white space, so no letter, [_] or
    [$] is left and no name can reach the evaluation; the code units kept
    stay in their order; the filter changes nothing in a text that is
    arithmetic already, in particular in its own result, and it goes through
    a concatenation part by part. *)
Theorem sanitize_leaves_arithmetic e :
  Forall (λ u, allowed u = true) (sanitize e)
  ∧ (∀ u, u ∈ sanitize e → u ∈ e ∧ ¬ name_unit u)
  ∧ sanitize e `sublist_of` e
  ∧ sanitize (sanitize e) = sanitize e
  ∧ (sanitize e = e ↔ Forall (λ u, allowed u = true) e)
  ∧ (∀ e', sanitize (e ++ e') = sanitize e ++ sanitize e').
Proof.
  split; [apply sanitize_allowed|]. split; [|split; [|split; [|split]]].
  - intros u Hu. apply list_elem_of_filter in Hu as [Hal Hin].
    split; [done|]. by apply allowed_not_name.
  - apply sublist_filter.
  - apply sanitize_fixed, sanitize_allowed.
  - split; [|apply sanitize_fixed]. intros <-. apply sanitize_allowed.
  - intros e'. apply filter_app.
Qed.

Lemma first_match_value q entries value :
  first_match q entries = Some value → value ∈ entries.*2.
Proof.
  induction entries as [|[key v] entries IH]; [done|]. simpl.
  destruct (includes q key || includes key q).
  - intros [= ->]. apply list_elem_of_here.
  - intros Hm. apply elem_of_cons. right. by apply IH.
Qed.

Lemma first_match_found q entries key value :
  (key, value) ∈ entries →
  includes q key || includes key q = true →
  is_Some (first_match q entries).
Proof.
  induction entries as [|[key' v] entries IH]; intros Hin Hm.
  - by apply elem_of_nil in Hin.
  - simpl. destruct (includes q key' || includes key' q) eqn:Hm'; [by eexists|].
    apply elem_of_cons in Hin as [[= <- <-]|Hin]; [congruence|]. by apply IH.
Qed.

Lemma first_match_none q entries :
  first_match q entries = None →
  ∀ key value, (key, value) ∈ entries →
               includes q key = false ∧ includes key q = false.
Proof.
  induction entries as [|[key' v] entries IH]; intros Hnone key value Hin.
  - by apply elem_of_nil in Hin.
  - simpl in Hnone. destruct (includes q key' || includes key' q) eqn:Hm'; [done|].
    apply elem_of_cons in Hin as [[= -> ->]|Hin].
    + by apply orb_false_elim.
    + by eapply IH.
Qed.

Lemma first_match_unmatched q entries :
  (∀ key value, (key, value) ∈ entries →
                includes q key = false ∧ includes key q = false) →
  first_match q entries = None.
Proof.
  induction entries as [|[key v] entries IH]; intros Hnone; [done|]. simpl.
  destruct (Hnone key v) as [-> ->]; [apply list_elem_of_here|]. simpl.
  apply IH. intros key' value Hin. apply (Hnone key' value).
  by apply elem_of_cons; right.
Qed.

(** The loop answers with the first entry that matches: the entries before
    it do not. *)
Lemma first_match_first q before key value after :
  (∀ k v, (k, v) ∈ before → includes q k || includes k q = false) →
  includes q key || includes key q = true →
  first_match q (before ++ (key, value) :: after) = Some value.
Proof.
  induction before as [|[k v] before IH]; intros Hbefore Hm; simpl.
  - by rewrite Hm.
  - rewrite (Hbefore k v) by apply list_elem_of_here.
    apply IH; [|done]. intros k' v' Hin. apply (Hbefore k' v').
    by apply elem_of_cons; right.
Qed.

Lemma first_match_split q entries value :
  first_match q entries = Some value →
  ∃ before key after,
    entries = before ++ (key, value) :: after
    ∧ includes q key || includes key q = true
    ∧ ∀ k v, (k, v) ∈ before → includes q k || includes k q = false.
Proof.
  induction entries as [|[key v] entries IH]; [done|]. simpl.
  destruct (includes q key || includes key q) eqn:Hm.
  - intros [= ->]. exists [], key, entries. split; [done|]. split; [done|].
    by intros k v' ?%elem_of_nil.
  - intros Hrest. destruct (IH Hrest) as (before & key' & after & -> & Hm' & Hbefore).
    exists ((key, v) :: before), key', after. split; [done|]. split; [done|].
    intros k v' [[= -> ->]|Hin]%elem_of_cons; [done|by eapply Hbefore].
Qed.

Variable toLowerCase : string → string.

(** The search tools: the answer is the value of the first entry of the
    table, in the order the keys are written, whose key is in the query put
    in lower case or has it in it, and every answer taken from the table is
    that of such an entry; with no such entry the answer is the message with
    the query as it was typed.  So a query that is empty once in lower case
    gets the value of the first entry of the table; a query that is a key
    once in lower case gets the value of that key, no other entry comes
    before it; and [capital] gets the answer for France, which is written
    before the one for Japan. *)
Theorem search_tool_answers query :
  (∀ before key value after,
     planning_results = before ++ (key, value) :: after →
     (∀ k v, (k, v) ∈ before →
             includes (toLowerCase query) k || includes k (toLowerCase query) = false) →
     includes (toLowerCase query) key || includes key (toLowerCase query) = true →
     planning_search toLowerCase query = value)
  ∧ (∀ before key value after,
       research_results = before ++ (key, value) :: after →
       (∀ k v, (k, v) ∈ before →
               includes (toLowerCase query) k || includes k (toLowerCase query) = false) →
       includes (toLowerCase query) key || includes key (toLowerCase query) = true →
       research_search toLowerCase query = value)
  ∧ (planning_search toLowerCase query
     ≠ ("No results found for " ++ quote ++ query ++ quote)%string →
     ∃ before key after,
       planning_results = before ++ (key, planning_search toLowerCase query) :: after
       ∧ includes (toLowerCase query) key || includes key (toLowerCase query) = true
       ∧ ∀ k v, (k, v) ∈ before →
           includes (toLowerCase query) k || includes k (toLowerCase query) = false)
  ∧ (research_search toLowerCase query
     ≠ ("Search results for " ++ quote ++ query ++ quote
        ++ ": No specific information found. This is a simulated search tool with limited data.")%string →
     ∃ before key after,
       research_results = before ++ (key, research_search toLowerCase query) :: after
       ∧ includes (toLowerCase query) key || includes key (toLowerCase query) = true
       ∧ ∀ k v, (k, v) ∈ before →
           includes (toLowerCase query) k || includes k (toLowerCase query) = false)
  ∧ (toLowerCase query = "capital" →
     planning_search toLowerCase query = "Paris"
     ∧ research_search toLowerCase query = "The capital of France is Paris.")
  ∧ (toLowerCase query = "" →
     planning_search toLowerCase query
     = "Tokyo has a population of approximately 14 million"
     ∧ research_search toLowerCase query
       = "Tokyo has a population of approximately 14 million people in the city proper, and over 37 million in the greater metropolitan area.")
  ∧ (∀ key value, (key, value) ∈ planning_results → toLowerCase query = key →
       planning_search toLowerCase query = value)
  ∧ (∀ key value, (key, value) ∈ research_results → toLowerCase query = key →
       research_search toLowerCase query = value)
  ∧ (∀ key value, (key, value) ∈ planning_results →
       includes (toLowerCase query) key || includes key (toLowerCase query) = true →
       planning_search toLowerCase query ∈ planning_results.*2)
  ∧ (∀ key value, (key, value) ∈ research_results →
       includes (toLowerCase query) key || includes key (toLowerCase query) = true →
       research_search toLowerCase query ∈ research_results.*2)
  ∧ ((∀ key value, (key, value) ∈ planning_results →
        includes (toLowerCase query) key = false
        ∧ includes key (toLowerCase query) = false) →
     planning_search toLowerCase query
     = ("No results found for " ++ quote ++ query ++ quote)%string)
  ∧ ((∀ key value, (key, value) ∈ research_results →
        includes (toLowerCase query) key = false
        ∧ includes key (toLowerCase query) = false) →
     research_search toLowerCase query
     = ("Search results for " ++ quote ++ query ++ quote
        ++ ": No specific information found. This is a simulated search tool with limited data.")%string).
Proof.
  unfold planning_search, research_search.
  split; [|split; [|split; [|split; [|split; [|split; [|split; [|split; [|split;
    [|split; [|split]]]]]]]]]].
  - intros before key value after -> Hbefore Hm. by rewrite first_match_first.
  - intros before key value after -> Hbefore Hm. by rewrite first_match_first.
  - destruct (first_match (toLowerCase query) planning_results) as [value|] eqn:Hv;
      [|done].
    intros _. by apply first_match_split.
  - destruct (first_match (toLowerCase query) research_results) as [value|] eqn:Hv;
      [|done].
    intros _. by apply first_match_split.
  - by intros ->.
  - by intros ->.
  - intros key value Hin ->.
    repeat (apply elem_of_cons in Hin as [[= -> ->]|Hin]; [done|]).
    by apply elem_of_nil in Hin.
  - intros key value Hin ->.
    repeat (apply elem_of_cons in Hin as [[= -> ->]|Hin]; [done|]).
    by apply elem_of_nil in Hin.
  - intros key value Hin Hm.
    destruct (first_match_found _ _ _ _ Hin Hm) as [v Hv]. rewrite Hv.
    by eapply first_match_value.
  - intros key value Hin Hm.
    destruct (first_match_found _ _ _ _ Hin Hm) as [v Hv]. rewrite Hv.
    by eapply first_match_value.
  - intros Hnone. by rewrite first_match_unmatched.
  - intros Hnone. by rewrite first_match_unmatched.
Qed.

Lemma toolCalls_all messages : toolCalls messages = mjoin (call_names <$> messages).
Proof.
  unfold toolCalls. induction messages as [|msg messages IH]; [done|].
  rewrite filter_cons, !fmap_cons.
  change (mjoin (call_names msg :: (call_names <$> messages)))
    with (call_names msg ++ mjoin (call_names <$> messages)).
  case_decide as Hd.
  - rewrite fmap_cons.
    change (mjoin (call_names msg :: ?l)) with (call_names msg ++ mjoin l).
    by rewrite IH.
  - rewrite IH. by destruct msg as [[[|name calls]|]|].
Qed.

Lemma distinct_from_spec xs : ∀ seen,
  NoDup (distinct_from seen xs)
  ∧ ∀ x, x ∈ distinct_from seen xs ↔ x ∈ xs ∧ x ∉ seen.
Proof.
  induction xs as [|y xs IH]; intros seen; simpl.
  - split; [constructor|]. intros x. split; [by intros ?%elem_of_nil|].
    by intros [?%elem_of_nil _].
  - case_bool_decide as Hy.
    + destruct (IH seen) as [Hnd Hin]. split; [done|]. intros x. rewrite Hin.
      rewrite elem_of_cons. split; [tauto|].
      intros [[->|?] ?]; [done|tauto].
    + destruct (IH (y :: seen)) as [Hnd Hin]. split.
      * apply NoDup_cons. split; [|done]. rewrite Hin, elem_of_cons. tauto.
      * intros x. rewrite !elem_of_cons, Hin, elem_of_cons.
        destruct (decide (x = y)) as [->|]; tauto.
Qed.

Lemma distinct_from_length xs : ∀ seen, length (distinct_from seen xs) ≤ length xs.
Proof.
  induction xs as [|y xs IH]; intros seen; simpl; [done|].
  case_bool_decide; simpl.
  - specialize (IH seen). lia.
  - specialize (IH (y :: seen)). lia.
Qed.

Lemma no_calls messages :
  length (mjoin (call_names <$> messages)) = 0
  ↔ Forall (λ msg, has_tool_calls msg = false) messages.
Proof.
  induction messages as [|msg messages IH]; [by split|].
  rewrite fmap_cons, Forall_cons.
  change (mjoin (call_names msg :: ?l)) with (call_names msg ++ mjoin l).
  rewrite length_app, <- IH.
  destruct msg as [[[|name calls]|]|]; simpl; split; try done; try lia;
    try (by intros [_ ?]); by intros [? _].
Qed.

(** The summary of the tools used: the names shown are the names of the tool
    calls of the response, each once, and the total is the number of the tool
    calls of all its messages; the test on the length in the filter changes
    nothing in the calls collected; and the summary is left out exactly when
    no message has a tool call. *)
Theorem tools_used_summary messages :
  toolCalls messages = mjoin (call_names <$> messages)
  ∧ NoDup (distinct (toolCalls messages))
  ∧ (∀ name, name ∈ distinct (toolCalls messages) ↔ name ∈ toolCalls messages)
  ∧ length (distinct (toolCalls messages)) ≤ length (toolCalls messages)
  ∧ (summary messages = None ↔ Forall (λ msg, has_tool_calls msg = false) messages)
  ∧ (∀ shown total, summary messages = Some (shown, total) →
       shown = join (distinct (toolCalls messages))
       ∧ total = length (toolCalls messages) ∧ 0 < total).
Proof.
  split; [apply toolCalls_all|].
  destruct (distinct_from_spec (toolCalls messages) []) as [Hnd Hin].
  split; [done|]. split; [|split; [apply distinct_from_length|split]].
  - intros name. unfold distinct. rewrite Hin. split; [tauto|].
    intros ?. split; [done|]. by intros ?%elem_of_nil.
  - unfold summary. rewrite toolCalls_all, <- no_calls.
    case_decide; split; (done || lia).
  - intros shown total. unfold summary. case_decide; [|done].
    by intros [= <- <-].
Qed.

End ToolFacts.

(** * The calculator server and the tools of several servers *)

Section ServerFacts.

Import CalculatorServer.

Variable number : Type.
Variable add sub mul div : number → number → number.
Variable five nine thirty_two : number.
Variable show : number → string.
Variable toFixed2 : number → string.
Variable evaluate : string → evaluated.
Variable initial : string → string.

Local Abbreviation call_tool :=
  (call_tool number add sub mul div five nine thirty_two show toFixed2 evaluate initial).

(** The errors of the calculator server: a tool of another name is refused
    with its name; [convert_temperature] does not look at the units when they
    are equal, it gives the value back whatever the unit is; with two
    different units it refuses, naming them, every pair but Celsius to
    Fahrenheit and Fahrenheit to Celsius; and [calculate] throws only what
    [evaluate] threw, under its own heading. *)
Theorem call_tool_errors name (args : arguments number) :
  (name ≠ "calculate" → name ≠ "convert_temperature" →
   call_tool name args = Throws ("Unknown tool: " ++ name)%string)
  ∧ (from _ args = to _ args →
     call_tool "convert_temperature" args
     = Returns (show (value _ args) ++ DEGREES ++ initial (from _ args) ++ " = "
                ++ show (value _ args) ++ DEGREES ++ initial (to _ args))%string)
  ∧ ((∃ message, call_tool "convert_temperature" args = Throws message)
     ↔ from _ args ≠ to _ args
       ∧ ¬ (from _ args = "celsius" ∧ to _ args = "fahrenheit")
       ∧ ¬ (from _ args = "fahrenheit" ∧ to _ args = "celsius"))
  ∧ (∀ message, call_tool "convert_temperature" args = Throws message →
       message = ("Invalid conversion: " ++ from _ args ++ " to " ++ to _ args)%string)
  ∧ (∀ message, call_tool "calculate" args = Throws message →
       (∃ thrown, evaluate (expression _ args) = ErrorThrown thrown
                  ∧ message = ("Invalid expression: " ++ thrown)%string)
       ∨ (evaluate (expression _ args) = OtherThrown
          ∧ message = "Invalid expression: Unknown error")).
Proof.
  split; [|split; [|split; [|split]]].
  - intros Hc Ht. unfold call_tool.
    apply String.eqb_neq in Hc, Ht. by rewrite Hc, Ht.
  - intros Heq. unfold call_tool. simpl.
    apply String.eqb_eq in Heq. by rewrite Heq.
  - unfold call_tool. simpl.
    destruct (String.eqb_spec (from _ args) (to _ args)) as [Heq|Hne].
    { split; [by intros [? ?]|]. by intros [? _]. }
    destruct (String.eqb_spec (from _ args) "celsius") as [Hfc|Hfc];
      destruct (String.eqb_spec (to _ args) "fahrenheit") as [Htf|Htf];
      destruct (String.eqb_spec (from _ args) "fahrenheit") as [Hff|Hff];
      destruct (String.eqb_spec (to _ args) "celsius") as [Htc|Htc];
      simpl; split; try (by intros [? ?]); try (intros (_ & H1 & H2); tauto);
      try (intros _; by eexists); try (intros _; repeat split; try done; tauto).
  - intros message. unfold call_tool. simpl.
    destruct (String.eqb (from _ args) (to _ args)); [done|].
    destruct (String.eqb (from _ args) "celsius" && String.eqb (to _ args) "fahrenheit");
      [done|].
    destruct (String.eqb (from _ args) "fahrenheit" && String.eqb (to _ args) "celsius");
      [done|].
    by intros [= <-].
  - intros message. unfold call_tool. simpl.
    destruct (evaluate (expression _ args)) as [text|thrown|]; [done|..].
    + intros [= <-]. left. by exists thrown.
    + intros [= <-]. by right.
Qed.

Import Grouping.

Lemma calc_not_context7 name :
  String.eqb name "calculate" || String.eqb name "convert_temperature" = true →
  Tools.includes name "library" || Tools.includes name "resolve" = false.
Proof.
  intros [Hn|Hn]%orb_prop; apply String.eqb_eq in Hn as ->; reflexivity.
Qed.

(** The tools shown by server: no tool is shown under both servers, so the
    two lists together never have more tools than there are; each list keeps
    the order of the tools; the two tools the calculator server lists are
    shown under the calculator whenever they are there; and a tool whose name
    fits neither test is shown under no server. *)
Theorem tools_by_server tools :
  (∀ name, name ∈ calcTools tools → name ∉ context7Tools tools)
  ∧ length (calcTools tools) + length (context7Tools tools) ≤ length tools
  ∧ calcTools tools `sublist_of` tools
  ∧ context7Tools tools `sublist_of` tools
  ∧ (∀ name, name ∈ listed_tools → name ∈ tools → name ∈ calcTools tools)
  ∧ calcTools listed_tools = listed_tools
  ∧ context7Tools listed_tools = []
  ∧ (∀ name, name ∈ tools →
       (String.eqb name "calculate" || String.eqb name "convert_temperature") = false →
       (Tools.includes name "library" || Tools.includes name "resolve") = false →
       (name ∉ calcTools tools) ∧ (name ∉ context7Tools tools)).
Proof.
  unfold calcTools, context7Tools.
  split; [|split; [|split; [|split; [|split; [|split; [|split]]]]]].
  - intros name [Hc _]%list_elem_of_filter [Hx _]%list_elem_of_filter.
    rewrite (calc_not_context7 name Hc) in Hx. done.
  - induction tools as [|name tools IH]; [done|]. rewrite !filter_cons.
    destruct (String.eqb name "calculate" || String.eqb name "convert_temperature")
      eqn:Hc.
    + rewrite (calc_not_context7 name Hc).
      rewrite decide_True, decide_False by done. simpl. lia.
    + rewrite decide_False by done. case_decide; simpl; lia.
  - apply sublist_filter.
  - apply sublist_filter.
  - intros name Hl Hin. apply list_elem_of_filter. split; [|done].
    repeat (apply elem_of_cons in Hl as [->|Hl]; [done|]). by apply elem_of_nil in Hl.
  - done.
  - done.
  - intros name Hin Hc Hx. split; intros [H _]%list_elem_of_filter; congruence.
Qed.

End ServerFacts.

(** * The script on error handling *)

Section ScriptFacts.

Import ErrorHandling.

Lemma created_shape w :
  Forall (λ e, is_close e = false) (createMCPClientSafely w).2
  ∧ Forall (λ e, e = Construct ∨ e = GetTools) (createMCPClientSafely w).2
  ∧ head (createMCPClientSafely w).2 = Some Construct
  ∧ ((createMCPClientSafely w).1 = true
     ↔ ∃ u n, construct w = Returns u ∧ probe w = Returns n).
Proof.
  unfold createMCPClientSafely.
  destruct (construct w) as [u|cr]; [destruct (probe w) as [n|pr]|]; simpl;
    (split; [repeat constructor|]); (split; [repeat constructor; auto|]);
    (split; [done|]); split; try done; try (by intros (? & ? & ? & ?)).
  intros _. by eexists _, _.
Qed.

Lemma with_client_shape w :
  Forall (λ e, is_close e = false) (with_client w).2
  ∧ (∀ reason, (with_client w).1 = Throws reason → setup w = Throws reason)
  ∧ (∀ v, setup w = Returns v →
       (with_client w).1 = Returns ()
       ∧ Invoke ∈ (with_client w).2
       ∧ Healthy (checkMCPHealth w) ∈ (with_client w).2
       ∧ CreateAgent (match fetch w with Returns tools => tools | Throws _ => 0 end)
         ∈ (with_client w).2).
Proof.
  unfold with_client. destruct (setup w) as [done_|sr]; simpl.
  - split; [|split; [done|]].
    + destruct (query w) as [messages| |]; [destruct (last messages)|..];
        repeat constructor.
    + intros v _. split; [done|].
      rewrite !elem_of_cons, !elem_of_app, !elem_of_cons.
      destruct (query w) as [messages| |]; [destruct (last messages)|..];
        rewrite !elem_of_cons; tauto.
  - split; [repeat constructor|]. split; [by intros ? [= ->]|done].
Qed.

Lemma after_close_app es1 es2 :
  Forall (λ e, is_close e = false) es1 →
  after_close (es1 ++ es2) = after_close es2.
Proof.
  induction 1 as [|e es1 He _ IH]; [done|]. simpl. by destruct e.
Qed.

Lemma count_close_none es :
  Forall (λ e, is_close e = false) es → filter (λ e, is_close e = true) es = [].
Proof.
  induction 1 as [|e es He _ IH]; [done|].
  rewrite filter_cons, decide_False, IH by congruence. done.
Qed.

(** The script closes the client it got, once and last: [close] is called
    once when the client was made and its first [getTools] went well, and not
    at all otherwise, also when the client was made and that [getTools]
    failed; after [close] the script makes no call on the client (what an
    agent still at work after the timeout of the query does is outside the
    script); before it the script has
    asked the agent and checked the health of the server whenever the model
    and the agent could be made, also when the second [getTools] failed, the
    agent then having no tool; the script always gets to its last lines; and
    without a client the one error reported is that no server is
    available. *)
Theorem client_closed_once w :
  length (filter (λ e, is_close e = true) (script w))
  = (if (createMCPClientSafely w).1 then 1 else 0)
  ∧ ((createMCPClientSafely w).1 = true
     ↔ ∃ u n, construct w = Returns u ∧ probe w = Returns n)
  ∧ Forall (λ e, uses_client e = false) (after_close (script w))
  ∧ head (script w) = Some Construct
  ∧ last (script w) = Some Takeaways
  ∧ (∀ u n v, construct w = Returns u → probe w = Returns n → setup w = Returns v →
       Invoke ∈ script w
       ∧ Healthy (checkMCPHealth w) ∈ script w
       ∧ CreateAgent (match fetch w with Returns tools => tools | Throws _ => 0 end)
         ∈ script w)
  ∧ (∀ reason, (createMCPClientSafely w).1 = false →
       Critical reason ∈ script w → reason = "No MCP servers available").
Proof.
  destruct (created_shape w) as (Hcc & Hkinds & Hhead & Hclient).
  destruct (with_client_shape w) as (Hwc & Hthrows & Hruns).
  unfold script.
  destruct (createMCPClientSafely w) as [mcpClient created] eqn:Hcreated.
  simpl in Hcc, Hkinds, Hhead, Hclient. simpl.
  assert (∃ result tried,
            (if mcpClient then with_client w
             else (Throws "No MCP servers available", [])) = (result, tried)
            ∧ Forall (λ e, is_close e = false) tried
            ∧ (mcpClient = false → result = Throws "No MCP servers available"
                                   ∧ tried = [])
            ∧ (mcpClient = true → (result, tried) = with_client w))
    as (result & tried & -> & Htried & Hnone & Hsome).
  { destruct mcpClient.
    - destruct (with_client w) as [result tried]. by exists result, tried.
    - eexists _, _. repeat split; done. }
  set (caught := match result with
                 | Throws reason => [Critical reason]
                 | Returns _ => []
                 end).
  assert (Forall (λ e, is_close e = false) caught) as Hcaught.
  { unfold caught. destruct result; repeat constructor. }
  set (closing := if mcpClient
                  then match close w with
                       | Returns _ => [Close]
                       | Throws _ => [Close; CloseFailed]
                       end
                  else []).
  split; [|split; [done|split; [|split; [|split; [|split]]]]].
  - rewrite !filter_app, !length_app, !count_close_none by done.
    unfold closing. destruct mcpClient; [destruct (close w)|]; done.
  - rewrite !after_close_app by done.
    unfold closing. destruct mcpClient; [destruct (close w)|]; simpl;
      repeat constructor.
  - destruct created; [done|]. done.
  - rewrite !app_assoc. apply last_snoc.
  - intros u n v Hu Hn Hv.
    assert (mcpClient = true) as -> by (apply Hclient; by eexists _, _).
    specialize (Hsome eq_refl). destruct (Hruns v Hv) as (_ & H1 & H2 & H3).
    rewrite <- Hsome in H1, H2, H3. simpl in H1, H2, H3.
    rewrite !elem_of_app. tauto.
  - intros reason -> Hin. destruct (Hnone eq_refl) as [-> ->].
    unfold caught, closing in Hin. simpl in Hin.
    rewrite !elem_of_app, !elem_of_cons in Hin.
    rewrite !elem_of_nil in Hin.
    destruct Hin as [Hin|[[= <-]|[?|[]]]]; try done.
    rewrite Forall_forall in Hkinds. by destruct (Hkinds _ Hin).
Qed.

End ScriptFacts.

(** * More runs of the scenarios *)

Section MoreRuns.

Import Scenario.

Local Abbreviation reachable :=
  (reachable getServerConfig runExample runServerExample root).
Local Abbreviation step :=
  (step getServerConfig runExample runServerExample root).
Local Abbreviation started := (started getServerConfig root).
Local Abbreviation settle_in_order :=
  (settle_in_order getServerConfig runExample runServerExample root).
Local Abbreviation run_sequential :=
  (run_sequential getServerConfig runExample runServerExample root).
Local Abbreviation main_sequential :=
  (main_sequential getServerConfig runExample runServerExample root).

Lemma three_started :
  reachable three 2 (started three 2)
  ∧ length (workers (started three 2)) = 2 `min` length three.
Proof.
  apply (started_reachable getServerConfig runExample runServerExample root three 2).
Qed.

Lemma pool_always_ends_witness :
  reachable overrun 2 (settle_in_order overrun [0; 1] (started overrun 2))
  ∧ ∃ p' o, rtc (step overrun 2) (settle_in_order overrun [0; 1] (started overrun 2)) p'
            ∧ outcome overrun 2 p' = Some o.
Proof.
  split; [apply overrun_midway|].
  destruct (pool_always_ends getServerConfig runExample runServerExample root overrun 2
              _ overrun_midway) as (_ & Hends & _).
  exact Hends.
Defined.

Lemma pool_saturated_witness :
  reachable three 2 (started three 2)
  ∧ length (workers (started three 2)) = 2 `min` length three
  ∧ crashed (started three 2) = false
  ∧ nextIndex (started three 2) < length three
  ∧ length (inflight (workers (started three 2))) = 2.
Proof.
  split; [apply three_started|]. split; [reflexivity|]. split; [reflexivity|].
  split; [vm_compute; lia|].
  assert (nextIndex (started three 2) < length three) as Hnext
    by (vm_compute; lia).
  destruct (pool_saturated getServerConfig runExample runServerExample root three 2
              _ (proj1 three_started) eq_refl eq_refl Hnext) as [Hfull _].
  exact Hfull.
Defined.

Lemma cursor_overshoot_witness :
  reachable overrun 2 (settle_in_order overrun [0; 1] (started overrun 2))
  ∧ nextIndex (settle_in_order overrun [0; 1] (started overrun 2)) ≤ 3 + 2.
Proof.
  split; [apply overrun_midway|].
  destruct (cursor_overshoot getServerConfig runExample runServerExample root overrun 2
              _ overrun_midway) as [Hle _].
  exact Hle.
Defined.

Lemma lines_follow_run_witness :
  reachable overrun 2 (settle_in_order overrun [0; 1] (started overrun 2))
  ∧ verdict_lines (printed (trace (settle_in_order overrun [0; 1] (started overrun 2))))
    = [PassedLine 2 3 "05-agents/code/C.ts" 10]
  ∧ length (starting_lines
              (printed (trace (settle_in_order overrun [0; 1] (started overrun 2)))))
    = 3.
Proof.
  split; [apply overrun_midway|].
  destruct (lines_follow_run getServerConfig runExample runServerExample
              root overrun 2 _ overrun_midway) as [Hs Hv].
  split; [by rewrite Hv|by rewrite Hs].
Defined.

Lemma pool_without_workers_witness :
  0 `min` length three = 0
  ∧ ∀ order,
      runTestsWithConcurrency getServerConfig runExample runServerExample root
        three 0 order
      = Some (Returns [None; None; None]).
Proof.
  split; [reflexivity|].
  destruct (pool_without_workers getServerConfig runExample runServerExample root
              three 0 eq_refl) as (_ & _ & Hrun & _).
  exact Hrun.
Defined.

Lemma sequential_tally_witness :
  run_sequential three = ((run_sequential three).1, None)
  ∧ passed (run_sequential three).1 + failed (run_sequential three).1
    = length (seq_results (run_sequential three).1).
Proof.
  split; [reflexivity|].
  destruct (sequential_tally getServerConfig runExample runServerExample root
              three (run_sequential three).1 None eq_refl) as (_ & _ & Hsum & _).
  exact Hsum.
Defined.

Lemma sequential_stops_witness :
  run_sequential broken = ((run_sequential broken).1, Some "spawn EACCES")
  ∧ main_sequential (Returns broken) = 1.
Proof.
  split; [reflexivity|].
  destruct (sequential_stops_at_first_rejection getServerConfig runExample
              runServerExample root broken (run_sequential broken).1
              "spawn EACCES" eq_refl) as (k & file & _ & _ & _ & _ & _ & Hexit).
  exact Hexit.
Defined.

End MoreRuns.
